(** * Distance engine of AlignedReID: [aligned_reid/utils/distance.py]

    A shallow embedding of the module's eight functions together with the
    NumPy operations they call, and the properties of the distance engine.

    Numbers.  The module computes on float arrays.  Elements are modelled as
    real numbers ([R]): every arithmetic operation is exact, so a statement
    "up to floating tolerance" becomes an equation.  Rounding, NaN and Inf
    are outside the model.

    Arrays.  An n-dimensional array is its shape together with the function
    from a multi-index to the element stored there.  The element function
    is only meaningful at indices inside the shape; two arrays are compared
    with [arr_eq], which looks at those indices only.

    Errors.  A Python exception is a value of [exn]; a call that may raise
    returns a [result]. *)

From Stdlib Require Import Reals Lra Lia List ZArith Bool Arith.
From Stdlib Require String.
Import ListNotations.
Import String.StringSyntax.
Delimit Scope string_scope with string.

Open Scope R_scope.

(* ================================================================= *)
(** ** Exceptions and results *)

Inductive exn : Type :=
| AssertionError
| ValueError
| IndexError
| AxisError
| NotImplementedError.

Inductive result (A : Type) : Type :=
| Ok (a : A)
| Raise (e : exn).

Arguments Ok {A} a.
Arguments Raise {A} e.

Definition bind {A B : Type} (r : result A) (k : A -> result B) : result B :=
  match r with
  | Ok a => k a
  | Raise e => Raise e
  end.

Notation "x <- r ;; k" := (bind r (fun x => k))
  (at level 61, r at next level, right associativity).

Fixpoint mapM {A B : Type} (f : A -> result B) (l : list A) : result (list B) :=
  match l with
  | [] => Ok []
  | a :: l' => b <- f a ;; bs <- mapM f l' ;; Ok (b :: bs)
  end.

(** A [for] loop over a list whose body may raise. *)
Fixpoint forM {S : Type} (l : list nat) (body : S -> nat -> result S) (s : S)
  : result S :=
  match l with
  | [] => Ok s
  | i :: l' => s' <- body s i ;; forM l' body s'
  end.

(* ================================================================= *)
(** ** Arrays *)

Record ndarray : Type := mk_ndarray {
  shape : list nat;
  item : list nat -> R
}.

Definition ndim (a : ndarray) : nat := length (shape a).

Definition size (a : ndarray) : nat := fold_right Nat.mul 1%nat (shape a).

(** [in_bounds idx s]: the multi-index [idx] addresses an element of an
    array of shape [s]. *)
Definition in_bounds (idx s : list nat) : Prop := Forall2 lt idx s.

(** Elementwise equality of two arrays. *)
Definition arr_eq (a b : ndarray) : Prop :=
  shape a = shape b /\
  forall idx, in_bounds idx (shape a) -> item a idx = item b idx.

(** A zero-dimensional array, NumPy's scalar. *)
Definition scalar (v : R) : ndarray := mk_ndarray [] (fun _ => v).

(** [np.array] of a list, of a list of rows, of a list of matrices. *)
Definition array1 (l : list R) : ndarray :=
  mk_ndarray [length l] (fun idx => nth (hd 0%nat idx) l 0).

Definition array2 (ncols : nat) (rows : list (list R)) : ndarray :=
  mk_ndarray [length rows; ncols]
    (fun idx => nth (nth 1 idx 0%nat) (nth (nth 0 idx 0%nat) rows []) 0).

Definition array3 (nrows ncols : nat) (mats : list (list (list R))) : ndarray :=
  mk_ndarray [length mats; nrows; ncols]
    (fun idx =>
       nth (nth 2 idx 0%nat)
           (nth (nth 1 idx 0%nat) (nth (nth 0 idx 0%nat) mats []) []) 0).

(** The position a Python index [i] denotes in a sequence of length [len]:
    negative indices count from the end. *)
Definition py_index (len : nat) (i : Z) : option nat :=
  if ((0 <=? i) && (i <? Z.of_nat len))%Z then Some (Z.to_nat i)
  else if ((- Z.of_nat len <=? i) && (i <? 0))%Z
       then Some (Z.to_nat (i + Z.of_nat len))
       else None.

(** [a[i]]: the sub-array at position [i] of the first axis. *)
Definition getitem (a : ndarray) (i : Z) : result ndarray :=
  match shape a with
  | [] => Raise IndexError
  | d :: s =>
      match py_index d i with
      | Some k => Ok (mk_ndarray s (fun idx => item a (k :: idx)))
      | None => Raise IndexError
      end
  end.

(** [a[i, j]]. *)
Definition getitem2 (a : ndarray) (i j : Z) : result ndarray :=
  r <- getitem a i ;; getitem r j.

(** [a[i, j]] for [i], [j] known to lie inside the first two axes, as in
    the body of a loop over [range(m)], [range(n)]. *)
Definition sub2 (a : ndarray) (i j : nat) : ndarray :=
  mk_ndarray (skipn 2 (shape a)) (fun idx => item a (i :: j :: idx)).

(** [a[i, j] = v] for [i], [j] inside the first two axes and [v] of the
    shape of [a[i, j]]. *)
Definition store2 (a : ndarray) (i j : nat) (v : ndarray) : ndarray :=
  mk_ndarray (shape a)
    (fun idx =>
       match idx with
       | i' :: j' :: rest =>
           if ((i' =? i) && (j' =? j))%nat then item v rest else item a idx
       | _ => item a idx
       end).

(** [np.zeros(shape)] and [np.zeros_like(a)]. *)
Definition zeros (s : list nat) : ndarray := mk_ndarray s (fun _ => 0).

Definition zeros_like (a : ndarray) : ndarray := zeros (shape a).

(** Elementwise operations on one array, and on two arrays of one shape. *)
Definition arr_map (f : R -> R) (a : ndarray) : ndarray :=
  mk_ndarray (shape a) (fun idx => f (item a idx)).

Definition arr_map2 (f : R -> R -> R) (a b : ndarray) : ndarray :=
  mk_ndarray (shape a) (fun idx => f (item a idx) (item b idx)).

(** [np.stack(arrs, axis=0)] of arrays of one shape. *)
Definition np_stack (arrs : list ndarray) : ndarray :=
  mk_ndarray (length arrs :: shape (hd (zeros []) arrs))
    (fun idx =>
       match idx with
       | k :: rest => item (nth k arrs (zeros [])) rest
       | [] => 0
       end).

(** [np.min(a, axis=0)] for a first axis that is not empty. *)
Definition np_min_axis0 (a : ndarray) : ndarray :=
  mk_ndarray (tl (shape a))
    (fun idx =>
       fold_left Rmin
         (map (fun k => item a (k :: idx)) (seq 1 (hd 0%nat (shape a) - 1)))
         (item a (0%nat :: idx))).

(* ================================================================= *)
(** ** [shortest_dist] *)

(** The body of the double loop: the four branches on [(i, j)]. *)
Definition shortest_dist_cell (dist_mat dist : ndarray) (i j : nat) : ndarray :=
  if ((i =? 0) && (j =? 0))%nat then
    store2 dist i j (sub2 dist_mat i j)
  else if ((i =? 0) && (0 <? j))%nat then
    store2 dist i j
      (arr_map2 Rplus (sub2 dist i (j - 1)) (sub2 dist_mat i j))
  else if ((0 <? i) && (j =? 0))%nat then
    store2 dist i j
      (arr_map2 Rplus (sub2 dist (i - 1) j) (sub2 dist_mat i j))
  else
    store2 dist i j
      (arr_map2 Rplus
         (np_min_axis0 (np_stack [sub2 dist (i - 1) j; sub2 dist i (j - 1)]))
         (sub2 dist_mat i j)).

Definition shortest_dist_row (dist_mat : ndarray) (n : nat) (dist : ndarray)
  (i : nat) : ndarray :=
  fold_left (fun dist j => shortest_dist_cell dist_mat dist i j) (seq 0 n) dist.

Definition shortest_dist_table (dist_mat : ndarray) (m n : nat) : ndarray :=
  fold_left (shortest_dist_row dist_mat n) (seq 0 m) (zeros_like dist_mat).

Definition shortest_dist (dist_mat : ndarray) : result ndarray :=
  match shape dist_mat with
  | m :: n :: _ =>
      let dist := shortest_dist_table dist_mat m n in
      getitem2 dist (-1) (-1)
  | _ => Raise ValueError
  end.

(* ================================================================= *)
(** ** Monotonic paths and the accumulated cost *)

(** A monotonic path from [(0, 0)] to [(i, j)]: every step advances the
    first index or the second index by one, never both.  The list holds the
    cells of the path, the last one first. *)
Inductive mono_path : nat -> nat -> list (nat * nat) -> Prop :=
| mono_origin : mono_path 0 0 [(0%nat, 0%nat)]
| mono_down i j p : mono_path i j p -> mono_path (S i) j ((S i, j) :: p)
| mono_right i j p : mono_path i j p -> mono_path i (S j) ((i, S j) :: p).

Definition path_cost (c : nat -> nat -> R) (p : list (nat * nat)) : R :=
  fold_right (fun ij s => c (fst ij) (snd ij) + s) 0 p.

(** [v] is the least cost of a monotonic path from [(0, 0)] to [(i, j)]. *)
Definition min_path_cost (c : nat -> nat -> R) (i j : nat) (v : R) : Prop :=
  (exists p, mono_path i j p /\ path_cost c p = v) /\
  (forall p, mono_path i j p -> v <= path_cost c p).

(** The recurrence of the accumulator, as a function of the cell. *)
Fixpoint acc_row0 (c : nat -> nat -> R) (j : nat) : R :=
  match j with
  | O => c 0%nat 0%nat
  | S j' => acc_row0 c j' + c 0%nat (S j')
  end.

Fixpoint acc (c : nat -> nat -> R) (i j : nat) : R :=
  match i with
  | O => acc_row0 c j
  | S i' =>
      (fix row (j : nat) : R :=
         match j with
         | O => acc c i' 0%nat + c (S i') 0%nat
         | S j' => Rmin (acc c i' (S j')) (row j') + c (S i') (S j')
         end) j
  end.

(** The cost grid of the batch slice [e] of a cost tensor. *)
Definition cost_at (dist_mat : ndarray) (e : list nat) (i j : nat) : R :=
  item dist_mat (i :: j :: e).

(** The cells before [(i, j)] in row-major order hold the accumulated cost,
    in every batch slice. *)
Definition filled (dist_mat : ndarray) (n i j : nat) (dist : ndarray) : Prop :=
  forall i' j' e,
    (j' < n)%nat -> (i' < i \/ (i' = i /\ j' < j))%nat ->
    item dist (i' :: j' :: e) = acc (cost_at dist_mat e) i' j'.

(* ================================================================= *)
(** ** NumPy operations used by the module *)

Definition Rsum (l : list R) : R := fold_right Rplus 0 l.

Definition prod_shape (s : list nat) : nat := fold_right Nat.mul 1%nat s.

Definition insert_at (ax : nat) (k : nat) (idx : list nat) : list nat :=
  firstn ax idx ++ k :: skipn ax idx.

Definition remove_at (ax : nat) (s : list nat) : list nat :=
  firstn ax s ++ skipn (S ax) s.

Definition set_at (ax : nat) (k : nat) (idx : list nat) : list nat :=
  firstn ax idx ++ k :: skipn (S ax) idx.

(** Broadcasting of two shapes, both written last axis first: axes are
    matched from the last one, an axis of length 1 stretches, a missing
    axis counts as length 1. *)
Fixpoint broadcast_rev (s1 s2 : list nat) : option (list nat) :=
  match s1, s2 with
  | [], s => Some s
  | s, [] => Some s
  | a :: s1', b :: s2' =>
      match broadcast_rev s1' s2' with
      | None => None
      | Some s =>
          if (a =? b)%nat then Some (a :: s)
          else if (a =? 1)%nat then Some (b :: s)
          else if (b =? 1)%nat then Some (a :: s)
          else None
      end
  end.

Definition broadcast_shapes (s1 s2 : list nat) : option (list nat) :=
  option_map (@rev nat) (broadcast_rev (rev s1) (rev s2)).

(** The index into an operand of shape [s] that an index of the broadcast
    result reads (both last axis first). *)
Fixpoint bidx_rev (s idx : list nat) : list nat :=
  match s, idx with
  | d :: s', i :: idx' =>
      (if (d =? 1)%nat then 0%nat else i) :: bidx_rev s' idx'
  | _, _ => []
  end.

Definition bidx (s idx : list nat) : list nat :=
  rev (bidx_rev (rev s) (rev idx)).

(** A binary elementwise operator with broadcasting: [a + b], [a / b]. *)
Definition broadcast2 (f : R -> R -> R) (a b : ndarray) : result ndarray :=
  match broadcast_shapes (shape a) (shape b) with
  | Some s =>
      Ok (mk_ndarray s
            (fun idx =>
               f (item a (bidx (shape a) idx)) (item b (bidx (shape b) idx))))
  | None => Raise ValueError
  end.

Definition np_square (a : ndarray) : ndarray := arr_map (fun v => v * v) a.

Definition np_sqrt (a : ndarray) : ndarray := arr_map sqrt a.

Definition np_exp (a : ndarray) : ndarray := arr_map exp a.

(** [np.sum(a, axis=axis)]. *)
Definition np_sum (a : ndarray) (axis : Z) : result ndarray :=
  match py_index (ndim a) axis with
  | Some ax =>
      Ok (mk_ndarray (remove_at ax (shape a))
            (fun idx =>
               Rsum (map (fun k => item a (insert_at ax k idx))
                         (seq 0 (nth ax (shape a) 0%nat)))))
  | None => Raise AxisError
  end.

(** [a[..., np.newaxis]] and [a[np.newaxis, ...]] (also [a[np.newaxis]]). *)
Definition newaxis_last (a : ndarray) : ndarray :=
  mk_ndarray (shape a ++ [1%nat]) (fun idx => item a (removelast idx)).

Definition newaxis_first (a : ndarray) : ndarray :=
  mk_ndarray (1%nat :: shape a) (fun idx => item a (tl idx)).

(** [a.T]: the axes reversed. *)
Definition np_T (a : ndarray) : ndarray :=
  mk_ndarray (rev (shape a)) (fun idx => item a (rev idx)).

(** [np.matmul(a, b)].  The last two axes are the matrix axes and the
    axes before them are broadcast; a one-dimensional operand is a row
    (on the left) or a column (on the right) whose added axis is dropped
    from the result; a zero-dimensional operand is refused.  Shapes and
    indices are handled last axis first. *)
Definition np_matmul (a b : ndarray) : result ndarray :=
  match rev (shape a), rev (shape b) with
  | [], _ => Raise ValueError
  | _, [] => Raise ValueError
  | [k], [k'] =>
      if (k =? k')%nat then
        Ok (scalar (Rsum (map (fun l => item a [l] * item b [l]) (seq 0 k))))
      else Raise ValueError
  | [k], m :: k' :: bb =>
      if (k =? k')%nat then
        Ok (mk_ndarray (rev (m :: bb))
              (fun idx =>
                 let ridx := rev idx in
                 let j := nth 0 ridx 0%nat in
                 let bi := skipn 1 ridx in
                 Rsum (map (fun l => item a [l] * item b (rev (j :: l :: bi)))
                           (seq 0 k))))
      else Raise ValueError
  | k :: n :: ba, [k'] =>
      if (k =? k')%nat then
        Ok (mk_ndarray (rev (n :: ba))
              (fun idx =>
                 let ridx := rev idx in
                 let i := nth 0 ridx 0%nat in
                 let bi := skipn 1 ridx in
                 Rsum (map (fun l => item a (rev (l :: i :: bi)) * item b [l])
                           (seq 0 k))))
      else Raise ValueError
  | k :: n :: ba, m :: k' :: bb =>
      if (k =? k')%nat then
        match broadcast_rev ba bb with
        | Some bs =>
            Ok (mk_ndarray (rev (m :: n :: bs))
                  (fun idx =>
                     let ridx := rev idx in
                     let j := nth 0 ridx 0%nat in
                     let i := nth 1 ridx 0%nat in
                     let bi := skipn 2 ridx in
                     Rsum (map (fun l =>
                                  item a (rev (l :: i :: bidx_rev ba bi)) *
                                  item b (rev (j :: l :: bidx_rev bb bi)))
                               (seq 0 k))))
        | None => Raise ValueError
        end
      else Raise ValueError
  end.

(** [a[a < 0] = 0]. *)
Definition clamp_negative (a : ndarray) : ndarray :=
  arr_map (fun v => if Rlt_dec v 0 then 0 else v) a.

(** The orders of [np.linalg.norm] along one axis that are modelled: the
    sum of absolute values, the Euclidean norm (the default of
    [normalize]) and the largest absolute value. *)
Inductive norm_order : Type := ord_1 | ord_2 | ord_inf.

Definition vector_norm (order : norm_order) (v : list R) : R :=
  match order with
  | ord_1 => Rsum (map Rabs v)
  | ord_2 => sqrt (Rsum (map (fun x => Rabs x * Rabs x) v))
  | ord_inf => fold_right Rmax 0 (map Rabs v)
  end.

(** The elements of [a] along axis [ax] through the index [idx]. *)
Definition fiber (a : ndarray) (ax : nat) (idx : list nat) : list R :=
  map (fun k => item a (set_at ax k idx)) (seq 0 (nth ax (shape a) 0%nat)).

(** [np.linalg.norm(a, ord=order, axis=axis, keepdims=True)].  The maximum
    over an axis of length 0 is refused; the sums over it are 0. *)
Definition linalg_norm (a : ndarray) (order : norm_order) (axis : Z)
  : result ndarray :=
  match py_index (ndim a) axis with
  | Some ax =>
      match order, nth ax (shape a) 0%nat with
      | ord_inf, O => Raise ValueError
      | _, _ =>
          Ok (mk_ndarray (set_at ax 1%nat (shape a))
                (fun idx => vector_norm order (fiber a ax idx)))
      end
  | None => Raise AxisError
  end.

(** [np.finfo(np.float32).eps], 2^-23. *)
Definition float32_eps : R := / 8388608.

(** Position [k] of a flat row-major enumeration, and back. *)
Fixpoint ravel (s idx : list nat) : nat :=
  match s, idx with
  | _ :: s', i :: idx' => (i * prod_shape s' + ravel s' idx')%nat
  | _, _ => 0%nat
  end.

Fixpoint unravel (s : list nat) (k : nat) : list nat :=
  match s with
  | [] => []
  | _ :: s' => (k / prod_shape s')%nat :: unravel s' (k mod prod_shape s')%nat
  end.

(** [a.reshape(s)]. *)
Definition np_reshape (a : ndarray) (s : list nat) : result ndarray :=
  if (prod_shape s =? prod_shape (shape a))%nat then
    Ok (mk_ndarray s (fun idx => item a (unravel (shape a) (ravel s idx))))
  else Raise ValueError.

(** The position of [ax] in [axes]. *)
Fixpoint find_pos (ax : nat) (axes : list nat) : nat :=
  match axes with
  | [] => 0%nat
  | x :: axes' => if (x =? ax)%nat then 0%nat else S (find_pos ax axes')
  end.

Definition is_permutation (axes : list nat) (n : nat) : bool :=
  (length axes =? n)%nat &&
  forallb (fun ax => existsb (Nat.eqb ax) axes) (seq 0 n).

(** [a.transpose(axes)]: axis [k] of the result is axis [axes[k]] of [a]. *)
Definition np_transpose (a : ndarray) (axes : list nat) : result ndarray :=
  if is_permutation axes (ndim a) then
    Ok (mk_ndarray (map (fun ax => nth ax (shape a) 0%nat) axes)
          (fun idx =>
             item a (map (fun ax => nth (find_pos ax axes) idx 0%nat)
                         (seq 0 (ndim a)))))
  else Raise ValueError.

(** [a[i, j] = v] for a value [v]: the value has to hold one element. *)
Definition store2_value (a : ndarray) (i j : nat) (v : ndarray)
  : result ndarray :=
  if (size v =? 1)%nat then
    Ok (store2 a i j (scalar (item v (repeat 0%nat (ndim v)))))
  else Raise ValueError.

(** [a.shape[0]]. *)
Definition shape0 (a : ndarray) : result nat :=
  match shape a with
  | [] => Raise IndexError
  | d :: _ => Ok d
  end.

(** The slice [st:en] of axis [ax]. *)
Definition slice_axis (a : ndarray) (ax st en : nat) : ndarray :=
  mk_ndarray (set_at ax (en - st)%nat (shape a))
    (fun idx => item a (set_at ax (st + nth ax idx 0)%nat idx)).

Fixpoint cumsum (start : nat) (l : list nat) : list nat :=
  match l with
  | [] => []
  | x :: l' => (start + x)%nat :: cumsum (start + x)%nat l'
  end.

(** [np.array_split(ary, sections, axis=axis)] for an integer number of
    sections: the first [Ntotal mod sections] parts have one element more
    than the others. *)
Definition array_split (ary : ndarray) (sections : Z) (axis : Z)
  : result (list ndarray) :=
  match py_index (ndim ary) axis with
  | None => Raise IndexError
  | Some ax =>
      let Ntotal := nth ax (shape ary) 0%nat in
      if (sections <=? 0)%Z then Raise ValueError
      else
        let Nsections := Z.to_nat sections in
        let Neach_section := (Ntotal / Nsections)%nat in
        let extras := (Ntotal mod Nsections)%nat in
        let section_sizes :=
          0%nat :: repeat (S Neach_section) extras
                ++ repeat Neach_section (Nsections - extras) in
        let div_points := cumsum 0 section_sizes in
        Ok (map (fun i =>
                   slice_axis ary ax (nth i div_points 0%nat)
                                     (nth (S i) div_points 0%nat))
                (seq 0 Nsections))
  end.

(** Two shapes agree on every axis except [ax]. *)
Definition same_off_axis (ax : nat) (s1 s2 : list nat) : bool :=
  (length s1 =? length s2)%nat &&
  forallb (fun k => (k =? ax)%nat || (nth k s1 0 =? nth k s2 0)%nat)
          (seq 0 (length s1)).

Fixpoint concat_item (arrs : list ndarray) (ax : nat) (idx : list nat) : R :=
  match arrs with
  | [] => 0
  | a :: rest =>
      let k := nth ax idx 0%nat in
      let d := nth ax (shape a) 0%nat in
      if (k <? d)%nat then item a idx
      else concat_item rest ax (set_at ax (k - d)%nat idx)
  end.

(** [np.concatenate(arrs, axis=ax)]. *)
Definition np_concatenate (arrs : list ndarray) (ax : nat) : result ndarray :=
  match arrs with
  | [] => Raise ValueError
  | a0 :: _ =>
      if (ndim a0 =? 0)%nat then Raise ValueError
      else if (ndim a0 <=? ax)%nat then Raise AxisError
      else if forallb (fun a => same_off_axis ax (shape a0) (shape a)) arrs then
        Ok (mk_ndarray
              (set_at ax
                 (fold_right Nat.add 0%nat
                    (map (fun a => nth ax (shape a) 0%nat) arrs))
                 (shape a0))
              (concat_item arrs ax))
      else Raise ValueError
  end.

(* ================================================================= *)
(** ** [normalize] and [compute_dist] *)

Definition normalize (nparray : ndarray) (order : norm_order) (axis : Z)
  : result ndarray :=
  norm <- linalg_norm nparray order axis ;;
  broadcast2 Rdiv nparray (arr_map (fun v => v + float32_eps) norm).

Definition type_in_cosine_euclidean (type : String.string) : bool :=
  String.eqb type "cosine"%string || String.eqb type "euclidean"%string.

Definition compute_dist (array1 array2 : ndarray) (type : String.string)
  : result ndarray :=
  if negb (type_in_cosine_euclidean type) then Raise AssertionError
  else if String.eqb type "cosine"%string then
    array1 <- normalize array1 ord_2 1 ;;
    array2 <- normalize array2 ord_2 1 ;;
    np_matmul array1 (np_T array2)
  else
    s1 <- np_sum (np_square array1) 1 ;;
    let square1 := newaxis_last s1 in
    s2 <- np_sum (np_square array2) 1 ;;
    let square2 := newaxis_first s2 in
    prod <- np_matmul array1 (np_T array2) ;;
    t <- broadcast2 Rplus (arr_map (Rmult (-2)) prod) square1 ;;
    squared_dist <- broadcast2 Rplus t square2 ;;
    let squared_dist := clamp_negative squared_dist in
    Ok (np_sqrt squared_dist).

(* ================================================================= *)
(** ** The local distances *)

(** [(np.exp(e) - 1.) / (np.exp(e) + 1.)], elementwise. *)
Definition squash (e : R) : R := (exp e - 1) / (exp e + 1).

Definition squash_arr (eu_dist : ndarray) : ndarray :=
  arr_map2 Rdiv (arr_map (fun v => v - 1) (np_exp eu_dist))
                (arr_map (fun v => v + 1) (np_exp eu_dist)).

Definition meta_local_dist (x y : ndarray) : result ndarray :=
  eu_dist <- compute_dist x y "euclidean"%string ;;
  let dist_mat := squash_arr eu_dist in
  r <- shortest_dist (newaxis_first dist_mat) ;;
  getitem r 0.

Definition serial_local_dist (x y : ndarray) : result ndarray :=
  M <- shape0 x ;;
  N <- shape0 y ;;
  forM (seq 0 M)
    (fun dist_mat i =>
       forM (seq 0 N)
         (fun dist_mat j =>
            xi <- getitem x (Z.of_nat i) ;;
            yj <- getitem y (Z.of_nat j) ;;
            v <- meta_local_dist xi yj ;;
            store2_value dist_mat i j v)
         dist_mat)
    (zeros [M; N]).

(** In the source the second unpacking rebinds [d]: both reshapes use the
    last dimension of [y]. *)
Definition parallel_local_dist (x y : ndarray) : result ndarray :=
  match shape x with
  | [M; m; _] =>
      match shape y with
      | [N; n; d] =>
          x <- np_reshape x [(M * m)%nat; d] ;;
          y <- np_reshape y [(N * n)%nat; d] ;;
          dist_mat <- compute_dist x y "euclidean"%string ;;
          let dist_mat := squash_arr dist_mat in
          dist_mat <- np_reshape dist_mat [M; m; N; n] ;;
          dist_mat <- np_transpose dist_mat [1; 3; 0; 2]%nat ;;
          shortest_dist dist_mat
      | _ => Raise ValueError
      end
  | _ => Raise ValueError
  end.

Definition local_dist (x y : ndarray) : result ndarray :=
  if ((ndim x =? 2) && (ndim y =? 2))%nat then meta_local_dist x y
  else if ((ndim x =? 3) && (ndim y =? 3))%nat then parallel_local_dist x y
  else Raise NotImplementedError.

(* ================================================================= *)
(** ** [low_memory_matrix_op] *)

(** The progress report of [verbose=True] writes to the terminal and reads
    the clock; it does not touch the returned value and is left out. *)
Definition low_memory_matrix_op
  (x y : ndarray) (func : ndarray -> ndarray -> result ndarray)
  (split_x_or_y : String.string) (axis : Z) (num_splits : Z) (verbose : bool)
  : result ndarray :=
  let to_split := if String.eqb split_x_or_y "x"%string then x else y in
  parts <- array_split to_split num_splits axis ;;
  mat <- mapM (fun part =>
                 if String.eqb split_x_or_y "x"%string then func part y
                 else func x part)
              parts ;;
  let axis_to_concat :=
    if String.eqb split_x_or_y "x"%string then 0%nat else 1%nat in
  np_concatenate mat axis_to_concat.

(* ================================================================= *)
(** ** Vocabulary of the statements *)

(** Row [i] of a two-dimensional array. *)
Definition row (a : ndarray) (i : nat) : list R :=
  map (fun k => item a [i; k]) (seq 0 (nth 1 (shape a) 0%nat)).

(** The Euclidean distance of two vectors. *)
Definition euclidean_distance (u v : list R) : R :=
  sqrt (Rsum (map (fun p => (fst p - snd p) * (fst p - snd p)) (combine u v))).

(** Descriptor [i] of object [I] in a three-dimensional array. *)
Definition row3 (a : ndarray) (I i : nat) : list R :=
  map (fun k => item a [I; i; k]) (seq 0 (nth 2 (shape a) 0%nat)).

(** The local cost of descriptor [i] of [x[I]] against descriptor [j] of
    [y[J]]. *)
Definition local_cost (x y : ndarray) (I J i j : nat) : R :=
  squash (euclidean_distance (row3 x I i) (row3 y J j)).

(** What the single-pair form returns for the pair [(x[I], y[J])]. *)
Definition first_column_cost (x y : ndarray) (m I J : nat) : R :=
  Rsum (map (fun i => local_cost x y I J i 0) (seq 0 m)).

(** One object with the two descriptors 0 and 0, and one object with the
    two descriptors 0 and 1: arrays of shape [1, 2, 1]. *)
Definition two_zeros : ndarray := array3 2 1 [[[0]; [0]]].

Definition zero_one : ndarray := array3 2 1 [[[0]; [1]]].

(** [s2] is [s1] with some axes shrunk to length 1. *)
Definition shrinks (s1 s2 : list nat) : Prop :=
  Forall2 (fun a b => b = a \/ b = 1%nat) s1 s2.

(** The operand of [low_memory_matrix_op] that is split, the call made on
    one part, and the axis along which the results are joined. *)
Definition to_split (split_x_or_y : String.string) (x y : ndarray) : ndarray :=
  if String.eqb split_x_or_y "x"%string then x else y.

Definition call_on_part (func : ndarray -> ndarray -> result ndarray)
  (split_x_or_y : String.string) (x y part : ndarray) : result ndarray :=
  if String.eqb split_x_or_y "x"%string then func part y else func x part.

Definition axis_to_concat (split_x_or_y : String.string) : nat :=
  if String.eqb split_x_or_y "x"%string then 0%nat else 1%nat.

(** Consecutive slices of axis [ax] with the given lengths, from [st]. *)
Fixpoint slices_from (a : ndarray) (ax st : nat) (sizes : list nat)
  : list ndarray :=
  match sizes with
  | [] => []
  | sz :: sizes' =>
      slice_axis a ax st (st + sz) :: slices_from a ax (st + sz)%nat sizes'
  end.

(** [func] works slice by slice: on a slice [st:en] of the split operand
    it returns the slice [st:en] of [z] along the joining axis. *)
Definition slice_compatible (func : ndarray -> ndarray -> result ndarray)
  (split_x_or_y : String.string) (x y : ndarray) (ax : nat) (z : ndarray)
  : Prop :=
  forall st en,
    (st <= en)%nat ->
    (en <= nth ax (shape (to_split split_x_or_y x y)) 0)%nat ->
    exists zp,
      call_on_part func split_x_or_y x y
        (slice_axis (to_split split_x_or_y x y) ax st en) = Ok zp /\
      arr_eq zp (slice_axis z (axis_to_concat split_x_or_y) st en).

(** The euclidean mode of [compute_dist] as a matrix function. *)
Definition euclidean_dist (a b : ndarray) : result ndarray :=
  compute_dist a b "euclidean"%string.

(** The total length of a list of parts. *)
Definition sum_sizes (l : list nat) : nat := fold_right Nat.add 0%nat l.

(** One row with two features, and one row with one feature. *)
Definition one_row_two_features : ndarray := array2 2 [[0; 0]].

Definition one_row_one_feature : ndarray := array2 1 [[0]].

(** Two rows with one feature. *)
Definition two_rows_one_feature : ndarray := array2 1 [[0]; [1]].

(** The dot product and the Euclidean norm of vectors. *)
Definition dot (u v : list R) : R :=
  Rsum (map (fun p => fst p * snd p) (combine u v)).

Definition norm2 (v : list R) : R := vector_norm ord_2 v.

(** The componentwise difference of two vectors. *)
Definition vec_sub (u v : list R) : list R :=
  map (fun p => fst p - snd p) (combine u v).

(** Three objects of two descriptors with two features, and two objects of
    one descriptor with two features. *)
Definition three_objects : ndarray :=
  array3 2 2 [[[0; 0]; [1; 0]]; [[0; 1]; [1; 1]]; [[2; 0]; [0; 2]]].

Definition two_single_descriptors : ndarray :=
  array3 1 2 [[[0; 0]]; [[3; 4]]].


(** The lengths of the parts [np.array_split] cuts an axis of length
    [Ntotal] into: [section_sizes] without its leading 0. *)
Definition split_sizes (Ntotal Nsections : nat) : list nat :=
  repeat (S (Ntotal / Nsections)) (Ntotal mod Nsections)
  ++ repeat (Ntotal / Nsections)%nat (Nsections - Ntotal mod Nsections).

(** The length of the axis that [low_memory_matrix_op] splits. *)
Definition split_length (split_x_or_y : String.string) (x y : ndarray)
  (ax : nat) : nat :=
  nth ax (shape (to_split split_x_or_y x y)) 0%nat.

(* ================================================================= *)
(** ** Properties of the accumulated cost *)

Lemma acc_0_0 c : acc c 0 0 = c 0%nat 0%nat.
Proof. reflexivity. Qed.

Lemma acc_0_S c j : acc c 0 (S j) = acc c 0 j + c 0%nat (S j).
Proof. reflexivity. Qed.

Lemma acc_S_0 c i : acc c (S i) 0 = acc c i 0 + c (S i) 0%nat.
Proof. reflexivity. Qed.

Lemma acc_S_S c i j :
  acc c (S i) (S j) = Rmin (acc c i (S j)) (acc c (S i) j) + c (S i) (S j).
Proof. reflexivity. Qed.

Lemma path_cost_cons c i j p :
  path_cost c ((i, j) :: p) = c i j + path_cost c p.
Proof. reflexivity. Qed.

Lemma acc_le_path c i j p : mono_path i j p -> acc c i j <= path_cost c p.
Proof.
  induction 1 as [| i j p Hp IH | i j p Hp IH]; rewrite path_cost_cons.
  - rewrite acc_0_0. unfold path_cost. simpl. lra.
  - destruct j as [| j].
    + rewrite acc_S_0. lra.
    + rewrite acc_S_S.
      pose proof (Rmin_l (acc c i (S j)) (acc c (S i) j)). lra.
  - destruct i as [| i].
    + rewrite acc_0_S. lra.
    + rewrite acc_S_S.
      pose proof (Rmin_r (acc c i (S j)) (acc c (S i) j)). lra.
Qed.

Lemma acc_is_path c i j : exists p, mono_path i j p /\ path_cost c p = acc c i j.
Proof.
  revert j. induction i as [| i IHi].
  - induction j as [| j IHj].
    + exists [(0%nat, 0%nat)]. split; [constructor |].
      rewrite path_cost_cons, acc_0_0. unfold path_cost. simpl. lra.
    + destruct IHj as (p & Hp & Hc).
      exists ((0%nat, S j) :: p). split; [now constructor |].
      rewrite path_cost_cons, acc_0_S, Hc. lra.
  - induction j as [| j IHj].
    + destruct (IHi 0%nat) as (p & Hp & Hc).
      exists ((S i, 0%nat) :: p). split; [now constructor |].
      rewrite path_cost_cons, acc_S_0, Hc. lra.
    + rewrite acc_S_S.
      destruct (Rle_dec (acc c i (S j)) (acc c (S i) j)) as [Hle | Hgt].
      * rewrite Rmin_left by exact Hle.
        destruct (IHi (S j)) as (p & Hp & Hc).
        exists ((S i, S j) :: p). split; [now constructor |].
        rewrite path_cost_cons, Hc. lra.
      * rewrite Rmin_right by lra.
        destruct IHj as (p & Hp & Hc).
        exists ((S i, S j) :: p). split; [now constructor |].
        rewrite path_cost_cons, Hc. lra.
Qed.

Lemma acc_min_path_cost c i j : min_path_cost c i j (acc c i j).
Proof.
  split; [apply acc_is_path | intros p Hp; now apply acc_le_path].
Qed.

(* ================================================================= *)
(** ** The table filled by [shortest_dist] *)

Lemma shape_shortest_dist_cell dm dist i j :
  shape (shortest_dist_cell dm dist i j) = shape dist.
Proof.
  unfold shortest_dist_cell.
  destruct ((i =? 0) && (j =? 0))%nat; [reflexivity |].
  destruct ((i =? 0) && (0 <? j))%nat; [reflexivity |].
  destruct ((0 <? i) && (j =? 0))%nat; reflexivity.
Qed.

Lemma shape_shortest_dist_row dm n dist i :
  shape (shortest_dist_row dm n dist i) = shape dist.
Proof.
  unfold shortest_dist_row. generalize (seq 0 n) as l. intros l. revert dist.
  induction l as [| j l IH]; intros dist; simpl; [reflexivity |].
  rewrite IH. apply shape_shortest_dist_cell.
Qed.

Lemma shape_shortest_dist_table dm m n :
  shape (shortest_dist_table dm m n) = shape dm.
Proof.
  unfold shortest_dist_table.
  change (shape dm) with (shape (zeros_like dm)).
  generalize (zeros_like dm) as dist. generalize (seq 0 m) as l.
  induction l as [| i l IH]; intros dist; simpl; [reflexivity |].
  rewrite IH. apply shape_shortest_dist_row.
Qed.

Lemma item_store2_same a i j v e :
  item (store2 a i j v) (i :: j :: e) = item v e.
Proof. simpl. now rewrite !Nat.eqb_refl. Qed.

Lemma item_store2_other a i j v i' j' e :
  (i' <> i \/ j' <> j)%nat ->
  item (store2 a i j v) (i' :: j' :: e) = item a (i' :: j' :: e).
Proof.
  intros H. simpl.
  destruct (Nat.eqb_spec i' i), (Nat.eqb_spec j' j); simpl; try reflexivity.
  lia.
Qed.

Lemma filled_cell dm n i j dist :
  (j < n)%nat -> filled dm n i j dist ->
  filled dm n i (S j) (shortest_dist_cell dm dist i j).
Proof.
  intros Hj Hf i' j' e Hj' Hlt.
  destruct (Nat.eq_dec i' i) as [-> | Hi];
    [destruct (Nat.eq_dec j' j) as [-> | Hjj] |].
  - (* the cell being written *)
    unfold shortest_dist_cell.
    destruct i as [| i], j as [| j];
      cbn [Nat.eqb Nat.ltb Nat.leb andb].
    + rewrite item_store2_same. reflexivity.
    + rewrite item_store2_same. rewrite acc_0_S. simpl item.
      rewrite Nat.sub_0_r. rewrite (Hf 0%nat j e) by lia. reflexivity.
    + rewrite item_store2_same. rewrite acc_S_0. simpl item.
      rewrite Nat.sub_0_r. rewrite (Hf i 0%nat e) by lia. reflexivity.
    + rewrite item_store2_same. rewrite acc_S_S. simpl item.
      rewrite !Nat.sub_0_r.
      rewrite (Hf i (S j) e) by lia. rewrite (Hf (S i) j e) by lia.
      reflexivity.
  - (* an earlier cell of the same row *)
    unfold shortest_dist_cell.
    assert (Hold : item dist (i :: j' :: e) = acc (cost_at dm e) i j')
      by (apply Hf; lia).
    destruct ((i =? 0) && (j =? 0))%nat;
      [| destruct ((i =? 0) && (0 <? j))%nat;
         [| destruct ((0 <? i) && (j =? 0))%nat]];
      rewrite item_store2_other by (right; exact Hjj); exact Hold.
  - (* a cell of an earlier row *)
    unfold shortest_dist_cell.
    assert (Hold : item dist (i' :: j' :: e) = acc (cost_at dm e) i' j')
      by (apply Hf; lia).
    destruct ((i =? 0) && (j =? 0))%nat;
      [| destruct ((i =? 0) && (0 <? j))%nat;
         [| destruct ((0 <? i) && (j =? 0))%nat]];
      rewrite item_store2_other by (left; exact Hi); exact Hold.
Qed.

Lemma filled_row_prefix dm n i dist k :
  (k <= n)%nat -> filled dm n i 0 dist ->
  filled dm n i k
    (fold_left (fun d j => shortest_dist_cell dm d i j) (seq 0 k) dist).
Proof.
  intros Hk Hf. induction k as [| k IH]; [exact Hf |].
  rewrite seq_S, fold_left_app. simpl.
  apply filled_cell; [lia |]. apply IH. lia.
Qed.

Lemma filled_row dm n i dist :
  filled dm n i 0 dist -> filled dm n (S i) 0 (shortest_dist_row dm n dist i).
Proof.
  intros Hf i' j' e Hj' Hlt.
  apply (filled_row_prefix dm n i dist n (le_n n) Hf); [exact Hj' | lia].
Qed.

Lemma filled_table_prefix dm n k :
  filled dm n k 0
    (fold_left (shortest_dist_row dm n) (seq 0 k) (zeros_like dm)).
Proof.
  induction k as [| k IH].
  - intros i' j' e _ Hlt. lia.
  - rewrite seq_S, fold_left_app. simpl. now apply filled_row.
Qed.

Lemma item_shortest_dist_table dm m n i j e :
  (i < m)%nat -> (j < n)%nat ->
  item (shortest_dist_table dm m n) (i :: j :: e) = acc (cost_at dm e) i j.
Proof.
  intros Hi Hj. apply (filled_table_prefix dm n m); [exact Hj | lia].
Qed.

Lemma py_index_last d : (1 <= d)%nat -> py_index d (-1) = Some (d - 1)%nat.
Proof.
  intros Hd. unfold py_index.
  change ((0 <=? -1)%Z) with false. change ((-1 <? 0)%Z) with true.
  assert (H1 : (- Z.of_nat d <=? -1)%Z = true) by (apply Z.leb_le; lia).
  rewrite H1. cbn [andb]. f_equal. lia.
Qed.

Lemma py_index_empty i : py_index 0 i = None.
Proof.
  unfold py_index. change (Z.of_nat 0) with 0%Z. change (- 0)%Z with 0%Z.
  destruct (0 <=? i)%Z eqn:H0, (i <? 0)%Z eqn:H1; cbn [andb]; try reflexivity.
  apply Z.leb_le in H0. apply Z.ltb_lt in H1. lia.
Qed.

(** What [shortest_dist] returns on a grid that is not empty. *)
Lemma shortest_dist_ok dm m n extra :
  shape dm = m :: n :: extra -> (1 <= m)%nat -> (1 <= n)%nat ->
  exists r,
    shortest_dist dm = Ok r /\ shape r = extra /\
    forall e, item r e = acc (cost_at dm e) (m - 1) (n - 1).
Proof.
  intros Hs Hm Hn. unfold shortest_dist. rewrite Hs. cbv zeta.
  unfold getitem2, getitem.
  rewrite shape_shortest_dist_table, Hs.
  rewrite (py_index_last m Hm). simpl.
  rewrite (py_index_last n Hn).
  eexists. split; [reflexivity |]. split; [reflexivity |].
  intros e. simpl. apply item_shortest_dist_table; lia.
Qed.

(* ================================================================= *)
(** ** Results and strings *)

Lemma type_euclidean_ok : type_in_cosine_euclidean "euclidean"%string = true.
Proof. reflexivity. Qed.

Lemma type_cosine_ok : type_in_cosine_euclidean "cosine"%string = true.
Proof. reflexivity. Qed.

Lemma euclidean_not_cosine :
  String.eqb "euclidean"%string "cosine"%string = false.
Proof. reflexivity. Qed.

(* ================================================================= *)
(** ** Broadcasting a matrix with a column and with a row *)

Lemma broadcast_shapes_col m1 m2 :
  broadcast_shapes [m1; m2] [m1; 1%nat] = Some [m1; m2].
Proof.
  unfold broadcast_shapes. simpl. rewrite Nat.eqb_refl.
  destruct (m2 =? 1)%nat; reflexivity.
Qed.

Lemma broadcast_shapes_row m1 m2 :
  broadcast_shapes [m1; m2] [1%nat; m2] = Some [m1; m2].
Proof.
  unfold broadcast_shapes. simpl. rewrite Nat.eqb_refl.
  destruct (m1 =? 1)%nat eqn:E; [| reflexivity].
  apply Nat.eqb_eq in E. subst. reflexivity.
Qed.

Lemma bidx_full m1 m2 i j :
  (i < m1)%nat -> (j < m2)%nat -> bidx [m1; m2] [i; j] = [i; j].
Proof.
  intros Hi Hj. unfold bidx. simpl.
  destruct (Nat.eqb_spec m2 1), (Nat.eqb_spec m1 1); simpl;
    repeat f_equal; lia.
Qed.

Lemma bidx_col m1 i j : (i < m1)%nat -> bidx [m1; 1%nat] [i; j] = [i; 0%nat].
Proof.
  intros Hi. unfold bidx. simpl.
  destruct (Nat.eqb_spec m1 1); simpl; repeat f_equal; lia.
Qed.

Lemma bidx_row m2 i j : (j < m2)%nat -> bidx [1%nat; m2] [i; j] = [0%nat; j].
Proof.
  intros Hj. unfold bidx. simpl.
  destruct (Nat.eqb_spec m2 1); simpl; repeat f_equal; lia.
Qed.

(* ================================================================= *)
(** ** Sums *)

Lemma Rsum_square_expand (f g : nat -> R) (l : list nat) :
  -2 * Rsum (map (fun k => f k * g k) l)
  + Rsum (map (fun k => f k * f k) l)
  + Rsum (map (fun k => g k * g k) l)
  = Rsum (map (fun k => (f k - g k) * (f k - g k)) l).
Proof.
  induction l as [| k l IH]; simpl.
  - lra.
  - rewrite <- IH. lra.
Qed.

Lemma Rsum_squares_nonneg (h : nat -> R) (l : list nat) :
  0 <= Rsum (map (fun k => h k * h k) l).
Proof.
  induction l as [| k l IH]; simpl; [lra |].
  pose proof (Rle_0_sqr (h k)) as Hk. unfold Rsqr in Hk. lra.
Qed.

Lemma Rsum_map_ext {A : Type} (f g : A -> R) (l : list A) :
  (forall k, In k l -> f k = g k) -> Rsum (map f l) = Rsum (map g l).
Proof.
  intros H. f_equal. now apply map_ext_in.
Qed.
Lemma py_index_2_1 : py_index 2 1 = Some 1%nat.
Proof. reflexivity. Qed.

Lemma np_sum_axis1_2d a m n :
  shape a = [m; n] ->
  np_sum a 1 =
  Ok (mk_ndarray [m]
        (fun idx => Rsum (map (fun k => item a (insert_at 1 k idx)) (seq 0 n)))).
Proof.
  intros Ha. unfold np_sum, ndim. rewrite Ha. cbn [length].
  rewrite py_index_2_1. reflexivity.
Qed.

Lemma np_matmul_2d a b m k k' n :
  shape a = [m; k] -> shape b = [k'; n] ->
  np_matmul a b =
  if (k =? k')%nat then
    Ok (mk_ndarray [m; n]
          (fun idx =>
             Rsum (map (fun l =>
                          item a [nth 1 (rev idx) 0%nat; l] *
                          item b [l; nth 0 (rev idx) 0%nat])
                       (seq 0 k))))
  else Raise ValueError.
Proof.
  intros Ha Hb. unfold np_matmul. rewrite Ha, Hb. cbn [rev app].
  destruct (k =? k')%nat; reflexivity.
Qed.

Lemma combine_map_same {A B C : Type} (f : A -> B) (g : A -> C) (l : list A) :
  combine (map f l) (map g l) = map (fun k => (f k, g k)) l.
Proof. induction l as [| k l IH]; simpl; [reflexivity | now rewrite IH]. Qed.

Lemma compute_dist_euclidean_2d A B m1 m2 n :
  shape A = [m1; n] -> shape B = [m2; n] ->
  exists D,
    compute_dist A B "euclidean"%string = Ok D /\ shape D = [m1; m2] /\
    forall i j, (i < m1)%nat -> (j < m2)%nat ->
      item D [i; j] = euclidean_distance (row A i) (row B j).
Proof.
  intros HA HB. unfold compute_dist.
  rewrite type_euclidean_ok, euclidean_not_cosine. cbn [negb].
  rewrite (np_sum_axis1_2d (np_square A) m1 n HA).
  rewrite (np_sum_axis1_2d (np_square B) m2 n HB).
  rewrite (np_matmul_2d A (np_T B) m1 n n m2 HA)
    by (unfold np_T; cbn [shape]; rewrite HB; reflexivity).
  rewrite Nat.eqb_refl. cbn [bind].
  unfold broadcast2 at 1. cbn [shape arr_map newaxis_last app].
  rewrite broadcast_shapes_col. cbn [bind].
  unfold broadcast2. cbn [shape newaxis_first].
  rewrite broadcast_shapes_row.
  eexists. split; [reflexivity |]. split; [reflexivity |].
  intros i j Hi Hj.
  unfold np_sqrt, clamp_negative, arr_map, newaxis_last, newaxis_first,
    np_square, np_T.
  cbn [item shape].
  rewrite (bidx_full m1 m2 i j Hi Hj), (bidx_row m2 i j Hj).
  rewrite (bidx_full m1 m2 i j Hi Hj), (bidx_col m1 i j Hi).
  cbn [removelast tl rev app nth insert_at firstn skipn].
  unfold arr_map. cbn [item].
  rewrite (Rsum_square_expand (fun k => item A [i; k]) (fun k => item B [j; k])).
  destruct (Rlt_dec _ 0) as [Hneg | _].
  - exfalso.
    pose proof (Rsum_squares_nonneg
                  (fun k => item A [i; k] - item B [j; k]) (seq 0 n)).
    lra.
  - unfold euclidean_distance, row. rewrite HA, HB. cbn [nth].
    rewrite combine_map_same, map_map. reflexivity.
Qed.

Lemma euclidean_distance_nonneg u v : 0 <= euclidean_distance u v.
Proof. unfold euclidean_distance. apply sqrt_pos. Qed.

Lemma euclidean_distance_self u : euclidean_distance u u = 0.
Proof.
  unfold euclidean_distance.
  replace (Rsum _) with 0; [apply sqrt_0 |].
  induction u as [| x u IH]; simpl; [reflexivity |].
  rewrite <- IH. lra.
Qed.

Lemma normalize_2d_axis1 a m n :
  shape a = [m; n] ->
  exists r, normalize a ord_2 1 = Ok r /\ shape r = [m; n].
Proof.
  intros Ha. unfold normalize, linalg_norm, ndim. rewrite Ha.
  cbn [length]. rewrite py_index_2_1. cbn [bind nth set_at firstn skipn app].
  unfold broadcast2. cbn [shape arr_map]. rewrite Ha.
  rewrite broadcast_shapes_col.
  eexists. split; reflexivity.
Qed.

(** Both modes stop at [np.matmul] when the feature dimensions differ. *)
Lemma compute_dist_inner_mismatch A B m1 n1 m2 n2 type :
  shape A = [m1; n1] -> shape B = [m2; n2] -> n1 <> n2 ->
  type = "euclidean"%string \/ type = "cosine"%string ->
  compute_dist A B type = Raise ValueError.
Proof.
  intros HA HB Hne [-> | ->]; unfold compute_dist.
  - rewrite type_euclidean_ok, euclidean_not_cosine. cbn [negb].
    rewrite (np_sum_axis1_2d (np_square A) m1 n1 HA).
    rewrite (np_sum_axis1_2d (np_square B) m2 n2 HB).
    rewrite (np_matmul_2d A (np_T B) m1 n1 n2 m2 HA)
      by (unfold np_T; cbn [shape]; rewrite HB; reflexivity).
    apply Nat.eqb_neq in Hne. rewrite Hne. reflexivity.
  - rewrite type_cosine_ok. cbn [negb].
    change (String.eqb "cosine"%string "cosine"%string) with true. cbv iota.
    destruct (normalize_2d_axis1 A m1 n1 HA) as (A' & -> & HA').
    destruct (normalize_2d_axis1 B m2 n2 HB) as (B' & -> & HB').
    cbn [bind].
    rewrite (np_matmul_2d A' (np_T B') m1 n1 n2 m2 HA')
      by (unfold np_T; cbn [shape]; rewrite HB'; reflexivity).
    apply Nat.eqb_neq in Hne. rewrite Hne. reflexivity.
Qed.

(** C8: when the feature dimensions of two two-dimensional arrays differ,
    [compute_dist] raises [ValueError] (the shape error of [np.matmul]),
    in the euclidean mode and in the cosine mode. *)
Theorem compute_dist_feature_mismatch A B m1 n1 m2 n2 type :
  shape A = [m1; n1] -> shape B = [m2; n2] -> n1 <> n2 ->
  type = "euclidean"%string \/ type = "cosine"%string ->
  compute_dist A B type = Raise ValueError.
Proof. apply compute_dist_inner_mismatch. Qed.

Lemma compute_dist_feature_mismatch_witness :
  compute_dist (array2 2 [[0; 0]]) (array2 1 [[0]]) "cosine"%string
  = Raise ValueError.
Proof.
  apply (compute_dist_feature_mismatch
           (array2 2 [[0; 0]]) (array2 1 [[0]]) 1 2 1 1 "cosine"%string).
  - reflexivity.
  - reflexivity.
  - lia.
  - right. reflexivity.
Defined.

(* ================================================================= *)
(** ** [shortest_dist]: the claims *)

(** C2: on a cost array of shape [m, n, *extra] with [m, n >= 1],
    [shortest_dist] returns an array of shape [*extra] whose entry at each
    batch index is the least cost of a monotonic path (steps down or
    right, never both) from cell (0, 0) to cell (m-1, n-1) of that batch
    slice; for a two-dimensional input [extra] is empty and the result is
    a scalar. *)
Theorem shortest_dist_min_path dist_mat m n extra :
  shape dist_mat = m :: n :: extra -> (1 <= m)%nat -> (1 <= n)%nat ->
  exists r,
    shortest_dist dist_mat = Ok r /\ shape r = extra /\
    forall e, in_bounds e extra ->
      min_path_cost (cost_at dist_mat e) (m - 1) (n - 1) (item r e).
Proof.
  intros Hs Hm Hn.
  destruct (shortest_dist_ok dist_mat m n extra Hs Hm Hn) as (r & Hr & Hsr & Hi).
  exists r. split; [exact Hr |]. split; [exact Hsr |].
  intros e _. rewrite Hi. apply acc_min_path_cost.
Qed.

Lemma shortest_dist_min_path_witness :
  exists r,
    shortest_dist (array2 2 [[1; 2]; [3; 4]]) = Ok r /\ shape r = [] /\
    forall e, in_bounds e [] ->
      min_path_cost (cost_at (array2 2 [[1; 2]; [3; 4]]) e)
                    (2 - 1) (2 - 1) (item r e).
Proof.
  apply (shortest_dist_min_path (array2 2 [[1; 2]; [3; 4]]) 2 2 []).
  - reflexivity.
  - lia.
  - lia.
Defined.

Lemma shortest_dist_low_rank dm :
  (ndim dm < 2)%nat -> shortest_dist dm = Raise ValueError.
Proof.
  unfold ndim, shortest_dist. intros H.
  destruct (shape dm) as [| m [| n extra]]; try reflexivity.
  simpl in H. lia.
Qed.

Lemma shortest_dist_empty dm m n extra :
  shape dm = m :: n :: extra -> (m = 0 \/ n = 0)%nat ->
  shortest_dist dm = Raise IndexError.
Proof.
  intros Hs H0. unfold shortest_dist. rewrite Hs. cbv zeta.
  unfold getitem2, getitem. rewrite shape_shortest_dist_table, Hs.
  destruct m as [| m].
  - rewrite (py_index_empty (-1)). reflexivity.
  - rewrite (py_index_last (S m)) by lia. cbn [bind shape].
    destruct H0 as [H0 | H0]; [discriminate |]. subst n.
    rewrite py_index_empty. reflexivity.
Qed.

(** C9, as the code has it: an input with fewer than two dimensions
    raises [ValueError]; an input with at least two dimensions succeeds
    when its first two dimensions are both at least 1, and raises
    [IndexError] when one of them is 0. *)
Theorem shortest_dist_failure_modes dm :
  ((ndim dm < 2)%nat -> shortest_dist dm = Raise ValueError) /\
  (forall m n extra, shape dm = m :: n :: extra ->
     ((1 <= m)%nat -> (1 <= n)%nat -> exists r, shortest_dist dm = Ok r) /\
     ((m = 0 \/ n = 0)%nat -> shortest_dist dm = Raise IndexError)).
Proof.
  split; [apply shortest_dist_low_rank |].
  intros m n extra Hs. split.
  - intros Hm Hn.
    destruct (shortest_dist_ok dm m n extra Hs Hm Hn) as (r & Hr & _).
    now exists r.
  - now apply (shortest_dist_empty dm m n extra).
Qed.

Lemma shortest_dist_failure_modes_witness :
  shortest_dist (array1 [1; 2]) = Raise ValueError /\
  (exists r, shortest_dist (array2 2 [[1; 2]; [3; 4]]) = Ok r) /\
  shortest_dist (zeros [2%nat; 0%nat]) = Raise IndexError.
Proof.
  split; [| split].
  - apply (proj1 (shortest_dist_failure_modes (array1 [1; 2]))).
    unfold ndim. simpl. lia.
  - apply (proj1 (proj2 (shortest_dist_failure_modes (array2 2 [[1; 2]; [3; 4]]))
                    2%nat 2%nat [] eq_refl)); lia.
  - apply (proj2 (proj2 (shortest_dist_failure_modes (zeros [2%nat; 0%nat]))
                    2%nat 0%nat [] eq_refl)).
    right. reflexivity.
Defined.

(** C9 as stated fails: an array of shape [0, 1] has two dimensions and
    [shortest_dist] raises on it. *)
Lemma shortest_dist_rank2_failure :
  (2 <= ndim (zeros [0%nat; 1%nat]))%nat /\
  shortest_dist (zeros [0%nat; 1%nat]) = Raise IndexError.
Proof.
  split; [unfold ndim; simpl; lia |].
  apply (shortest_dist_empty _ 0 1 []); [reflexivity | now left].
Qed.

(* ================================================================= *)
(** ** [local_dist] *)

(** C7: with two two-dimensional inputs [local_dist] is [meta_local_dist];
    with two three-dimensional inputs it is [parallel_local_dist]; with
    any other pair of ranks it raises [NotImplementedError]. *)
Theorem local_dist_dispatch x y :
  (ndim x = 2%nat /\ ndim y = 2%nat ->
   local_dist x y = meta_local_dist x y) /\
  (ndim x = 3%nat /\ ndim y = 3%nat ->
   local_dist x y = parallel_local_dist x y) /\
  (~ (ndim x = 2%nat /\ ndim y = 2%nat) ->
   ~ (ndim x = 3%nat /\ ndim y = 3%nat) ->
   local_dist x y = Raise NotImplementedError).
Proof.
  unfold local_dist. repeat split.
  - intros [-> ->]. reflexivity.
  - intros [-> ->]. reflexivity.
  - intros H2 H3.
    destruct (Nat.eqb_spec (ndim x) 2), (Nat.eqb_spec (ndim y) 2);
      cbn [andb]; try tauto;
      destruct (Nat.eqb_spec (ndim x) 3), (Nat.eqb_spec (ndim y) 3);
      cbn [andb]; try tauto; reflexivity.
Qed.

Lemma local_dist_dispatch_witness :
  local_dist (array2 1 [[0]]) (array2 1 [[1]])
  = meta_local_dist (array2 1 [[0]]) (array2 1 [[1]]) /\
  local_dist (array3 1 1 [[[0]]]) (array3 1 1 [[[1]]])
  = parallel_local_dist (array3 1 1 [[[0]]]) (array3 1 1 [[[1]]]) /\
  local_dist (array2 1 [[0]]) (array1 [1]) = Raise NotImplementedError.
Proof.
  split; [| split].
  - apply (proj1 (local_dist_dispatch (array2 1 [[0]]) (array2 1 [[1]]))).
    split; reflexivity.
  - apply (proj1 (proj2 (local_dist_dispatch (array3 1 1 [[[0]]])
                                             (array3 1 1 [[[1]]])))).
    split; reflexivity.
  - apply (proj2 (proj2 (local_dist_dispatch (array2 1 [[0]]) (array1 [1])))).
    + unfold ndim. simpl. intros [_ H]. discriminate H.
    + unfold ndim. simpl. intros [H _]. discriminate H.
Defined.

(* ================================================================= *)
(** ** [meta_local_dist] *)

Lemma Rsum_app l1 l2 : Rsum (l1 ++ l2) = Rsum l1 + Rsum l2.
Proof.
  induction l1 as [| x l1 IH]; simpl; [lra | rewrite IH; lra].
Qed.

(** Along the first row the accumulator is a running sum. *)
Lemma acc_row0_sum c k : acc c 0 k = Rsum (map (c 0%nat) (seq 0 (S k))).
Proof.
  induction k as [| k IH].
  - rewrite acc_0_0. simpl. lra.
  - rewrite acc_0_S, IH, (seq_S (S k)), map_app, Rsum_app. simpl. lra.
Qed.

Lemma item_squash_arr a idx : item (squash_arr a) idx = squash (item a idx).
Proof. reflexivity. Qed.

Lemma shape_squash_arr a : shape (squash_arr a) = shape a.
Proof. reflexivity. Qed.

Lemma py_index_0 d : (1 <= d)%nat -> py_index d 0 = Some 0%nat.
Proof.
  intros Hd. unfold py_index. change (0 <=? 0)%Z with true.
  assert (H : (0 <? Z.of_nat d)%Z = true) by (apply Z.ltb_lt; lia).
  rewrite H. reflexivity.
Qed.

(** The value of the single-pair form: the sum of the first column of
    the grid of local costs. *)
Lemma meta_local_dist_value x y m n d :
  shape x = [m; d] -> shape y = [n; d] -> (1 <= m)%nat -> (1 <= n)%nat ->
  exists r,
    meta_local_dist x y = Ok r /\ shape r = [] /\
    item r [] =
    Rsum (map (fun i => squash (euclidean_distance (row x i) (row y 0)))
              (seq 0 m)).
Proof.
  intros Hx Hy Hm Hn. unfold meta_local_dist.
  destruct (compute_dist_euclidean_2d x y m n d Hx Hy) as (D & -> & HsD & HD).
  cbn [bind].
  destruct (shortest_dist_ok (newaxis_first (squash_arr D)) 1 m [n])
    as (r & -> & Hsr & Hr).
  { unfold newaxis_first. cbn [shape]. rewrite shape_squash_arr, HsD.
    reflexivity. }
  { lia. }
  { exact Hm. }
  cbn [bind]. unfold getitem. rewrite Hsr, (py_index_0 n Hn).
  eexists. split; [reflexivity |]. split; [reflexivity |].
  cbn [item]. rewrite Hr. change (1 - 1)%nat with 0%nat.
  rewrite acc_row0_sum. replace (S (m - 1)) with m by lia.
  apply Rsum_map_ext. intros i Hi. apply in_seq in Hi.
  unfold cost_at, newaxis_first. cbn [item tl].
  rewrite item_squash_arr. f_equal. apply HD; lia.
Qed.

(** C3: for [x] of shape [m, d] and [y] of shape [n, d] with [m, n >= 1],
    [meta_local_dist] returns the scalar
    [sum over i < m of squash (distance (x[i], y[0]))]: the cost matrix
    enters [shortest_dist] with a new leading axis, the grid is 1 by m and
    its columns are the batch, and [[0]] selects the first of them. *)
Theorem meta_local_dist_first_column x y m n d :
  shape x = [m; d] -> shape y = [n; d] -> (1 <= m)%nat -> (1 <= n)%nat ->
  exists r,
    meta_local_dist x y = Ok r /\ shape r = [] /\
    item r [] =
    Rsum (map (fun i => squash (euclidean_distance (row x i) (row y 0)))
              (seq 0 m)).
Proof. apply meta_local_dist_value. Qed.

Lemma meta_local_dist_first_column_witness :
  exists r,
    meta_local_dist (array2 1 [[0]; [0]]) (array2 1 [[0]; [1]]) = Ok r /\
    shape r = [] /\
    item r [] =
    Rsum (map (fun i =>
                 squash (euclidean_distance (row (array2 1 [[0]; [0]]) i)
                                            (row (array2 1 [[0]; [1]]) 0)))
              (seq 0 2)).
Proof.
  apply (meta_local_dist_first_column
           (array2 1 [[0]; [0]]) (array2 1 [[0]; [1]]) 2 2 1).
  - reflexivity.
  - reflexivity.
  - lia.
  - lia.
Defined.

(* ================================================================= *)
(** ** [parallel_local_dist] *)

Lemma acc_ext c c' i j :
  (forall i' j', (i' <= i)%nat -> (j' <= j)%nat -> c i' j' = c' i' j') ->
  acc c i j = acc c' i j.
Proof.
  revert j. induction i as [| i IHi].
  - induction j as [| j IHj]; intros H.
    + rewrite !acc_0_0. apply H; lia.
    + rewrite !acc_0_S, IHj by (intros; apply H; lia).
      rewrite (H 0%nat (S j)) by lia. reflexivity.
  - induction j as [| j IHj]; intros H.
    + rewrite !acc_S_0, (IHi 0%nat) by (intros; apply H; lia).
      rewrite (H (S i) 0%nat) by lia. reflexivity.
    + rewrite !acc_S_S, (IHi (S j)), IHj by (intros; apply H; lia).
      rewrite (H (S i) (S j)) by lia. reflexivity.
Qed.

Lemma div_mod_block m I i : (i < m)%nat ->
  ((I * m + i) / m = I /\ (I * m + i) mod m = i)%nat.
Proof.
  intros Hi. split.
  - rewrite Nat.div_add_l by lia. rewrite Nat.div_small by exact Hi. lia.
  - rewrite (Nat.add_comm (I * m) i), Nat.Div0.mod_add. now apply Nat.mod_small.
Qed.

Lemma unravel_ravel_2_3 M m d a k :
  (k < d)%nat -> (a < M * m)%nat ->
  unravel [M; m; d] (ravel [(M * m)%nat; d] [a; k])
  = [(a / m)%nat; (a mod m)%nat; k].
Proof.
  intros Hk Ha.
  assert (Hm : (m <> 0)%nat) by (intros ->; lia).
  cbn [ravel unravel prod_shape fold_right].
  rewrite !Nat.mul_1_r, Nat.add_0_r, Nat.div_1_r.
  pose proof (Nat.div_mod_eq a m) as Ea.
  pose proof (Nat.mod_upper_bound a m Hm) as Hr.
  set (q := (a / m)%nat) in *. set (r := (a mod m)%nat) in *.
  assert (E : (a * d + k = q * (m * d) + (r * d + k))%nat) by nia.
  assert (Hlt : (r * d + k < m * d)%nat) by nia.
  rewrite E.
  destruct (div_mod_block (m * d) q (r * d + k) Hlt) as [-> ->].
  destruct (div_mod_block d r k Hk) as [-> ->].
  reflexivity.
Qed.

Lemma unravel_ravel_4_2 M m N n I i J j :
  (I < M)%nat -> (i < m)%nat -> (J < N)%nat -> (j < n)%nat ->
  unravel [(M * m)%nat; (N * n)%nat] (ravel [M; m; N; n] [I; i; J; j])
  = [(I * m + i)%nat; (J * n + j)%nat].
Proof.
  intros HI Hi HJ Hj.
  cbn [ravel unravel prod_shape fold_right].
  rewrite !Nat.mul_1_r, !Nat.add_0_r, Nat.div_1_r.
  assert (E : (I * (m * (N * n)) + (i * (N * n) + (J * n + j))
               = (I * m + i) * (N * n) + (J * n + j))%nat) by nia.
  assert (Hlt : (J * n + j < N * n)%nat) by nia.
  rewrite E.
  destruct (div_mod_block (N * n) (I * m + i) (J * n + j) Hlt) as [-> ->].
  reflexivity.
Qed.

Lemma np_reshape_3_2 x M m d :
  shape x = [M; m; d] ->
  exists x',
    np_reshape x [(M * m)%nat; d] = Ok x' /\ shape x' = [(M * m)%nat; d] /\
    forall I i, (I < M)%nat -> (i < m)%nat ->
      row x' (I * m + i) = row3 x I i.
Proof.
  intros Hx. unfold np_reshape. rewrite Hx.
  assert (E : (prod_shape [(M * m)%nat; d] =? prod_shape [M; m; d])%nat = true).
  { apply Nat.eqb_eq. cbn [prod_shape fold_right]. lia. }
  rewrite E. eexists. split; [reflexivity |]. split; [reflexivity |].
  intros I i HI Hi. unfold row, row3. cbn [shape item nth]. rewrite Hx.
  cbn [nth]. apply map_ext_in. intros k Hk. apply in_seq in Hk.
  rewrite unravel_ravel_2_3 by nia.
  destruct (div_mod_block m I i Hi) as [-> ->]. reflexivity.
Qed.

(** What the batched form computes: entry [I, J] is the accumulated cost
    at the far corner of the [m] by [n] grid of local costs of the pair
    [(x[I], y[J])]. *)
Lemma parallel_local_dist_entries x y M m N n d :
  shape x = [M; m; d] -> shape y = [N; n; d] ->
  (1 <= m)%nat -> (1 <= n)%nat ->
  exists r,
    parallel_local_dist x y = Ok r /\ shape r = [M; N] /\
    forall I J, (I < M)%nat -> (J < N)%nat ->
      item r [I; J] = acc (local_cost x y I J) (m - 1) (n - 1).
Proof.
  intros Hx Hy Hm Hn. unfold parallel_local_dist. rewrite Hx, Hy.
  destruct (np_reshape_3_2 x M m d Hx) as (x' & -> & Hsx & Hrx).
  destruct (np_reshape_3_2 y N n d Hy) as (y' & -> & Hsy & Hry).
  cbn [bind].
  destruct (compute_dist_euclidean_2d x' y' _ _ d Hsx Hsy) as (D & -> & HsD & HD).
  cbn [bind].
  unfold np_reshape. rewrite shape_squash_arr, HsD.
  assert (E : (prod_shape [M; m; N; n]
               =? prod_shape [(M * m)%nat; (N * n)%nat])%nat = true).
  { apply Nat.eqb_eq. cbn [prod_shape fold_right]. lia. }
  rewrite E. cbn [bind].
  unfold np_transpose, ndim. cbn [shape length].
  change (is_permutation [1; 3; 0; 2]%nat 4) with true. cbv iota.
  cbn [bind map nth seq find_pos Nat.eqb].
  match goal with
  | |- exists r, shortest_dist ?dm = _ /\ _ =>
      destruct (shortest_dist_ok dm m n [M; N] eq_refl Hm Hn)
        as (r & Hr & Hsr & Hir)
  end.
  exists r. split; [exact Hr |]. split; [exact Hsr |].
  intros I J HI HJ. rewrite Hir. apply acc_ext. intros i j Hi Hj.
  unfold cost_at. cbn [item nth].
  rewrite unravel_ravel_4_2 by lia.
  rewrite item_squash_arr, HD by nia.
  rewrite Hrx, Hry by lia. reflexivity.
Qed.

(** X11: for [x] of shape [M, m, d] and [y] of shape [N, n, d] with
    [m, n >= 1], [parallel_local_dist] returns a matrix of shape [M, N]
    whose entry [I, J] is the least cost of a monotonic path through the
    [m] by [n] grid of local costs of the pair [(x[I], y[J])]. *)
Lemma parallel_local_dist_min_path x y M m N n d :
  shape x = [M; m; d] -> shape y = [N; n; d] ->
  (1 <= m)%nat -> (1 <= n)%nat ->
  exists r,
    parallel_local_dist x y = Ok r /\ shape r = [M; N] /\
    forall I J, (I < M)%nat -> (J < N)%nat ->
      min_path_cost (local_cost x y I J) (m - 1) (n - 1) (item r [I; J]).
Proof.
  intros Hx Hy Hm Hn.
  destruct (parallel_local_dist_entries x y M m N n d Hx Hy Hm Hn)
    as (r & Hr & Hs & Hi).
  exists r. split; [exact Hr |]. split; [exact Hs |].
  intros I J HI HJ. rewrite (Hi I J HI HJ). apply acc_min_path_cost.
Qed.

(* ================================================================= *)
(** ** [serial_local_dist] *)

Lemma forM_fold {S : Type} (body : S -> nat -> result S) (g : S -> nat -> S)
  (l : list nat) :
  (forall s i, In i l -> body s i = Ok (g s i)) ->
  forall s, forM l body s = Ok (fold_left g l s).
Proof.
  induction l as [| i l IH]; intros H s; [reflexivity |].
  cbn [forM fold_left]. rewrite (H s i) by now left. cbn [bind].
  apply IH. intros s' i' Hi'. apply H. now right.
Qed.

Lemma py_index_of_nat d i : (i < d)%nat -> py_index d (Z.of_nat i) = Some i.
Proof.
  intros Hi. unfold py_index.
  assert (H0 : (0 <=? Z.of_nat i)%Z = true) by (apply Z.leb_le; lia).
  assert (H1 : (Z.of_nat i <? Z.of_nat d)%Z = true) by (apply Z.ltb_lt; lia).
  rewrite H0, H1. cbn [andb]. now rewrite Nat2Z.id.
Qed.

(** [x[I]] for an object inside a three-dimensional array. *)
Lemma getitem_object x M m d I :
  shape x = [M; m; d] -> (I < M)%nat ->
  exists xI,
    getitem x (Z.of_nat I) = Ok xI /\ shape xI = [m; d] /\
    forall i, row xI i = row3 x I i.
Proof.
  intros Hx HI. unfold getitem. rewrite Hx, (py_index_of_nat M I HI).
  eexists. split; [reflexivity |]. split; [reflexivity |].
  intros i. unfold row, row3. cbn [shape item nth]. rewrite Hx. reflexivity.
Qed.

Lemma serial_cell x y M m N n d dist I J :
  shape x = [M; m; d] -> shape y = [N; n; d] ->
  (1 <= m)%nat -> (1 <= n)%nat -> (I < M)%nat -> (J < N)%nat ->
  (xi <- getitem x (Z.of_nat I) ;;
   yj <- getitem y (Z.of_nat J) ;;
   v <- meta_local_dist xi yj ;;
   store2_value dist I J v)
  = Ok (store2 dist I J (scalar (first_column_cost x y m I J))).
Proof.
  intros Hx Hy Hm Hn HI HJ.
  destruct (getitem_object x M m d I Hx HI) as (xI & -> & HsI & HrI).
  destruct (getitem_object y N n d J Hy HJ) as (yJ & -> & HsJ & HrJ).
  cbn [bind].
  destruct (meta_local_dist_value xI yJ m n d HsI HsJ Hm Hn)
    as (v & -> & Hsv & Hv).
  cbn [bind]. unfold store2_value, size, ndim. rewrite Hsv.
  cbn [fold_right length repeat Nat.eqb]. rewrite Hv.
  unfold first_column_cost, local_cost.
  do 3 f_equal. apply Rsum_map_ext. intros i _. now rewrite HrI, HrJ.
Qed.

Lemma item_fold_store_row (V : nat -> nat -> R) i l d I J e :
  item (fold_left (fun d j => store2 d i j (scalar (V i j))) l d) (I :: J :: e)
  = if ((I =? i)%nat && existsb (Nat.eqb J) l)%bool then V i J
    else item d (I :: J :: e).
Proof.
  revert d. induction l as [| j l IH]; intros d; cbn [fold_left existsb].
  - now rewrite andb_false_r.
  - rewrite IH.
    destruct (Nat.eqb_spec I i) as [-> | HIi]; cbn [andb].
    + destruct (existsb (Nat.eqb J) l); [now rewrite orb_true_r |].
      rewrite orb_false_r.
      destruct (Nat.eqb_spec J j) as [-> | HJj].
      * now rewrite item_store2_same.
      * now rewrite item_store2_other by (now right).
    + now rewrite item_store2_other by (now left).
Qed.

Lemma shape_fold_store_row (V : nat -> nat -> R) i l d :
  shape (fold_left (fun d j => store2 d i j (scalar (V i j))) l d) = shape d.
Proof.
  revert d. induction l as [| j l IH]; intros d; [reflexivity |].
  cbn [fold_left]. now rewrite IH.
Qed.

Lemma item_fold_store_table (V : nat -> nat -> R) cols rows d I J e :
  item (fold_left
          (fun d i => fold_left (fun d j => store2 d i j (scalar (V i j))) cols d)
          rows d) (I :: J :: e)
  = if (existsb (Nat.eqb I) rows && existsb (Nat.eqb J) cols)%bool then V I J
    else item d (I :: J :: e).
Proof.
  revert d. induction rows as [| i rows IH]; intros d; cbn [fold_left existsb].
  - reflexivity.
  - rewrite IH, item_fold_store_row.
    destruct (existsb (Nat.eqb I) rows); cbn [andb orb].
    + rewrite orb_true_r. cbn [andb].
      destruct (existsb (Nat.eqb J) cols); [reflexivity |].
      now rewrite andb_false_r.
    + rewrite orb_false_r.
      destruct (Nat.eqb_spec I i) as [-> | HIi]; cbn [andb]; [| reflexivity].
      destruct (existsb (Nat.eqb J) cols); reflexivity.
Qed.

Lemma shape_fold_store_table (V : nat -> nat -> R) cols rows d :
  shape (fold_left
           (fun d i => fold_left (fun d j => store2 d i j (scalar (V i j))) cols d)
           rows d) = shape d.
Proof.
  revert d. induction rows as [| i rows IH]; intros d; [reflexivity |].
  cbn [fold_left]. now rewrite IH, shape_fold_store_row.
Qed.

Lemma existsb_eqb_seq k n : (k < n)%nat -> existsb (Nat.eqb k) (seq 0 n) = true.
Proof.
  intros Hk. apply existsb_exists. exists k. split.
  - apply in_seq. lia.
  - apply Nat.eqb_refl.
Qed.

(** What the serial form computes: entry [I, J] is the sum of the first
    column of the grid of local costs of the pair [(x[I], y[J])]. *)
Lemma serial_local_dist_entries x y M m N n d :
  shape x = [M; m; d] -> shape y = [N; n; d] ->
  (1 <= m)%nat -> (1 <= n)%nat ->
  exists r,
    serial_local_dist x y = Ok r /\ shape r = [M; N] /\
    forall I J, (I < M)%nat -> (J < N)%nat ->
      item r [I; J] = first_column_cost x y m I J.
Proof.
  intros Hx Hy Hm Hn. unfold serial_local_dist, shape0. rewrite Hx, Hy.
  cbn [bind].
  rewrite (forM_fold _
             (fun dist i =>
                fold_left
                  (fun dist j =>
                     store2 dist i j (scalar (first_column_cost x y m i j)))
                  (seq 0 N) dist)).
  - eexists. split; [reflexivity |]. split.
    + now rewrite shape_fold_store_table.
    + intros I J HI HJ. rewrite item_fold_store_table.
      now rewrite (existsb_eqb_seq I M HI), (existsb_eqb_seq J N HJ).
  - intros dist I HI. apply in_seq in HI.
    apply forM_fold. intros dist' J HJ. apply in_seq in HJ.
    apply (serial_cell x y M m N n d); assumption || lia.
Qed.

(* ================================================================= *)
(** ** The serial and the batched form disagree *)

Lemma squash_0 : squash 0 = 0.
Proof. unfold squash. rewrite exp_0. lra. Qed.

Lemma squash_1_lower : 1 / 3 < squash 1.
Proof.
  unfold squash.
  assert (He : 2 < exp 1) by (pose proof (exp_ineq1 1); lra).
  apply (Rmult_lt_reg_r (exp 1 + 1)); [lra |].
  unfold Rdiv at 2. rewrite Rmult_assoc, Rinv_l by lra. lra.
Qed.

Lemma euclidean_distance_0_0 : euclidean_distance [0] [0] = 0.
Proof. apply euclidean_distance_self. Qed.

Lemma euclidean_distance_0_1 : euclidean_distance [0] [1] = 1.
Proof.
  unfold euclidean_distance. cbn [combine map fst snd Rsum fold_right].
  replace ((0 - 1) * (0 - 1) + 0) with 1 by lra. apply sqrt_1.
Qed.

Lemma local_cost_two_zeros_zero_one i j :
  (i < 2)%nat -> (j < 2)%nat ->
  local_cost two_zeros zero_one 0 0 i j = if (j =? 0)%nat then 0 else squash 1.
Proof.
  intros Hi Hj. unfold local_cost, row3, two_zeros, zero_one, array3.
  cbn [shape item nth seq map length].
  destruct i as [| [| i]]; [| | lia]; destruct j as [| [| j]]; try lia;
    cbn [nth Nat.eqb];
    rewrite ?euclidean_distance_0_0, ?euclidean_distance_0_1;
    auto using squash_0.
Qed.

(** C1 at a failing input, one pair of objects with two descriptors each:
    the batched form returns the least path cost [squash 1] of the 2 by 2
    grid of local costs, the serial form returns the sum 0 of its first
    column, and the two differ by more than 1/3. *)
Theorem parallel_serial_local_dist_differ :
  exists p s,
    parallel_local_dist two_zeros zero_one = Ok p /\
    serial_local_dist two_zeros zero_one = Ok s /\
    shape p = [1%nat; 1%nat] /\ shape s = [1%nat; 1%nat] /\
    item p [0%nat; 0%nat] = squash 1 /\
    item s [0%nat; 0%nat] = 0 /\
    1 / 3 < item p [0%nat; 0%nat] - item s [0%nat; 0%nat].
Proof.
  destruct (parallel_local_dist_entries two_zeros zero_one 1 2 1 2 1
              eq_refl eq_refl) as (p & Hp & Hsp & Hip); [lia | lia |].
  destruct (serial_local_dist_entries two_zeros zero_one 1 2 1 2 1
              eq_refl eq_refl) as (s & Hs & Hss & His); [lia | lia |].
  assert (Ep : item p [0%nat; 0%nat] = squash 1).
  { rewrite Hip by lia. change (2 - 1)%nat with 1%nat.
    rewrite acc_S_S, acc_S_0, acc_0_S, acc_0_0.
    rewrite !local_cost_two_zeros_zero_one by lia. cbn [Nat.eqb].
    pose proof squash_1_lower.
    rewrite Rmin_right by lra. lra. }
  assert (Es : item s [0%nat; 0%nat] = 0).
  { rewrite His by lia. unfold first_column_cost.
    cbn [seq map Rsum fold_right].
    rewrite !local_cost_two_zeros_zero_one by lia. cbn [Nat.eqb]. lra. }
  exists p, s. repeat split; try assumption.
  rewrite Ep, Es. pose proof squash_1_lower. lra.
Qed.

(* ================================================================= *)
(** ** Vector norms *)

Lemma Rabs_div_pos x s : 0 < s -> Rabs (x / s) = Rabs x / s.
Proof.
  intros Hs. unfold Rdiv. rewrite Rabs_mult, (Rabs_right (/ s)); [reflexivity |].
  apply Rle_ge. left. now apply Rinv_0_lt_compat.
Qed.

Lemma Rsum_abs_nonneg v : 0 <= Rsum (map Rabs v).
Proof.
  induction v as [| x v IH]; simpl; [lra |].
  pose proof (Rabs_pos x). lra.
Qed.

Lemma Rsum_abs_sq_nonneg v : 0 <= Rsum (map (fun x => Rabs x * Rabs x) v).
Proof.
  induction v as [| x v IH]; simpl; [lra |].
  pose proof (Rabs_pos x). nra.
Qed.

Lemma max_abs_nonneg v : 0 <= fold_right Rmax 0 (map Rabs v).
Proof.
  induction v as [| x v IH]; simpl; [lra |].
  pose proof (Rmax_r (Rabs x) (fold_right Rmax 0 (map Rabs v))). lra.
Qed.

Lemma vector_norm_nonneg order v : 0 <= vector_norm order v.
Proof.
  destruct order; simpl.
  - apply Rsum_abs_nonneg.
  - apply sqrt_pos.
  - apply max_abs_nonneg.
Qed.

Lemma vector_norm_pos order v :
  Exists (fun x => x <> 0) v -> 0 < vector_norm order v.
Proof.
  intros H. destruct order; simpl.
  - induction H as [x v Hx | x v _ IH]; simpl.
    + pose proof (Rabs_pos_lt x Hx). pose proof (Rsum_abs_nonneg v). lra.
    + pose proof (Rabs_pos x). lra.
  - apply sqrt_lt_R0.
    induction H as [x v Hx | x v _ IH]; simpl.
    + pose proof (Rabs_pos_lt x Hx). pose proof (Rsum_abs_sq_nonneg v). nra.
    + pose proof (Rabs_pos x). nra.
  - induction H as [x v Hx | x v _ IH]; simpl.
    + pose proof (Rabs_pos_lt x Hx).
      pose proof (Rmax_l (Rabs x) (fold_right Rmax 0 (map Rabs v))). lra.
    + pose proof (Rmax_r (Rabs x) (fold_right Rmax 0 (map Rabs v))). lra.
Qed.

(** Dividing a vector by a positive number divides its norm. *)
Lemma vector_norm_div order v s :
  0 < s ->
  vector_norm order (map (fun x => x / s) v) = vector_norm order v / s.
Proof.
  intros Hs. destruct order; simpl.
  - induction v as [| x v IH]; simpl; [lra |].
    rewrite IH, Rabs_div_pos by exact Hs. lra.
  - assert (E : Rsum (map (fun x => Rabs x * Rabs x) (map (fun x => x / s) v))
                = Rsum (map (fun x => Rabs x * Rabs x) v) / (s * s)).
    { induction v as [| x v IH]; simpl; [lra |].
      rewrite IH, Rabs_div_pos by exact Hs. field. lra. }
    rewrite E, sqrt_div; [| apply Rsum_abs_sq_nonneg | nra].
    rewrite sqrt_square by lra. reflexivity.
  - induction v as [| x v IH]; simpl; [lra |].
    rewrite IH, Rabs_div_pos by exact Hs.
    unfold Rdiv. rewrite !(Rmult_comm _ (/ s)).
    apply RmaxRmult. left. now apply Rinv_0_lt_compat.
Qed.

Lemma float32_eps_pos : 0 < float32_eps.
Proof. unfold float32_eps. apply Rinv_0_lt_compat. lra. Qed.

(* ================================================================= *)
(** ** Replacing one component, and broadcasting along one axis *)

Lemma length_set_at ax v (l : list nat) :
  (ax < length l)%nat -> length (set_at ax v l) = length l.
Proof.
  intros H. unfold set_at.
  rewrite length_app, firstn_length_le by lia. cbn [length].
  rewrite length_skipn. lia.
Qed.

Lemma nth_set_at_same ax v (l : list nat) d :
  (ax < length l)%nat -> nth ax (set_at ax v l) d = v.
Proof.
  intros H. unfold set_at.
  rewrite app_nth2; rewrite firstn_length_le by lia; [| lia].
  now rewrite Nat.sub_diag.
Qed.

Lemma nth_set_at_other ax k v (l : list nat) d :
  (ax < length l)%nat -> k <> ax -> nth k (set_at ax v l) d = nth k l d.
Proof.
  intros H Hk. unfold set_at.
  destruct (Nat.lt_ge_cases k ax) as [Hlt | Hge].
  - rewrite app_nth1 by (rewrite firstn_length_le; lia).
    rewrite nth_firstn. destruct (Nat.ltb_spec k ax); [reflexivity | lia].
  - rewrite app_nth2; rewrite firstn_length_le by lia; [| lia].
    destruct (k - ax)%nat as [| q] eqn:E; [lia |]. cbn [nth].
    rewrite nth_skipn. f_equal. lia.
Qed.

Lemma set_at_set_at ax v w (l : list nat) :
  (ax < length l)%nat -> set_at ax v (set_at ax w l) = set_at ax v l.
Proof.
  intros H. unfold set_at.
  rewrite firstn_app, firstn_firstn, Nat.min_id.
  rewrite firstn_length_le by lia. rewrite Nat.sub_diag. cbn [firstn].
  rewrite app_nil_r. f_equal. f_equal.
  rewrite skipn_app, firstn_length_le by lia.
  rewrite (skipn_all2 (firstn ax l)) by (rewrite firstn_length_le; lia).
  replace (S ax - ax)%nat with 1%nat by lia. reflexivity.
Qed.

Lemma set_at_nth ax (l : list nat) d :
  (ax < length l)%nat -> set_at ax (nth ax l d) l = l.
Proof.
  revert ax. induction l as [| x l IH]; intros ax H; [simpl in H; lia |].
  destruct ax as [| ax]; [reflexivity |].
  unfold set_at in *. cbn [firstn skipn nth app]. f_equal.
  apply IH. simpl in H. lia.
Qed.

Lemma in_bounds_length idx s : in_bounds idx s -> length idx = length s.
Proof. induction 1; simpl; congruence. Qed.

Lemma in_bounds_nth idx s k :
  in_bounds idx s -> (k < length s)%nat -> (nth k idx 0 < nth k s 0)%nat.
Proof.
  intros H. revert k. induction H as [| i d idx s Hid _ IH]; intros k Hk.
  - simpl in Hk. lia.
  - destruct k as [| k]; [exact Hid |]. simpl. apply IH. simpl in Hk. lia.
Qed.

Lemma in_bounds_set_at ax k idx s :
  in_bounds idx s -> (k < nth ax s 0)%nat -> in_bounds (set_at ax k idx) s.
Proof.
  intros H. revert ax. induction H as [| i d idx s Hid Hrest IH]; intros ax Hk.
  - destruct ax; simpl in Hk; lia.
  - destruct ax as [| ax].
    + constructor; [exact Hk | exact Hrest].
    + constructor; [exact Hid |]. apply IH. exact Hk.
Qed.

Lemma bidx_rev_app s1 s2 i1 i2 :
  length s1 = length i1 ->
  bidx_rev (s1 ++ s2) (i1 ++ i2) = bidx_rev s1 i1 ++ bidx_rev s2 i2.
Proof.
  revert i1. induction s1 as [| d s1 IH]; intros [| i i1] H;
    try discriminate H; [reflexivity |].
  cbn [app bidx_rev]. f_equal. apply IH. now injection H.
Qed.

Lemma bidx_same_length s idx :
  length s = length idx -> bidx s idx = bidx_rev s idx.
Proof.
  unfold bidx. revert idx. induction s as [| d s IH]; intros [| i idx] H;
    try discriminate H; [reflexivity |].
  cbn [rev]. rewrite bidx_rev_app by (rewrite !length_rev; now injection H).
  rewrite rev_app_distr. cbn [bidx_rev rev app]. f_equal.
  apply IH. now injection H.
Qed.

Lemma bidx_in_bounds idx s : in_bounds idx s -> bidx s idx = idx.
Proof.
  intros H. rewrite bidx_same_length by (symmetry; now apply in_bounds_length).
  induction H as [| i d idx s Hid _ IH]; [reflexivity |].
  cbn [bidx_rev]. rewrite IH.
  destruct (Nat.eqb_spec d 1); [f_equal; lia | reflexivity].
Qed.

Lemma bidx_keepdims ax idx s :
  in_bounds idx s -> (ax < length s)%nat ->
  bidx (set_at ax 1%nat s) idx = set_at ax 0%nat idx.
Proof.
  intros H Hax.
  rewrite bidx_same_length
    by (rewrite length_set_at by exact Hax; symmetry; now apply in_bounds_length).
  revert ax Hax. induction H as [| i d idx s Hid Hrest IH]; intros ax Hax.
  - simpl in Hax. lia.
  - destruct ax as [| ax].
    + unfold set_at. cbn [firstn skipn app bidx_rev Nat.eqb]. f_equal.
      pose proof (bidx_in_bounds idx s Hrest) as E.
      rewrite bidx_same_length in E
        by (symmetry; now apply in_bounds_length).
      exact E.
    + unfold set_at in *. cbn [firstn skipn app bidx_rev].
      rewrite IH by (simpl in Hax; lia).
      destruct (Nat.eqb_spec d 1); [f_equal; lia | reflexivity].
Qed.

Lemma shrinks_refl s : shrinks s s.
Proof. induction s; constructor; auto. Qed.

Lemma shrinks_set_at ax s :
  (ax < length s)%nat -> shrinks s (set_at ax 1%nat s).
Proof.
  revert ax. induction s as [| d s IH]; intros ax H; [simpl in H; lia |].
  destruct ax as [| ax].
  - constructor; [now right | apply shrinks_refl].
  - constructor; [now left |]. apply IH. simpl in H. lia.
Qed.

Lemma shrinks_rev s1 s2 : shrinks s1 s2 -> shrinks (rev s1) (rev s2).
Proof.
  induction 1 as [| a b s1 s2 Hab _ IH]; [constructor |].
  cbn [rev]. apply Forall2_app; [exact IH |]. constructor; [exact Hab | constructor].
Qed.

Lemma broadcast_rev_shrinks s1 s2 :
  shrinks s1 s2 -> broadcast_rev s1 s2 = Some s1.
Proof.
  induction 1 as [| a b s1 s2 Hab _ IH]; [reflexivity |].
  cbn [broadcast_rev]. rewrite IH.
  destruct Hab as [-> | ->].
  - now rewrite Nat.eqb_refl.
  - destruct (Nat.eqb_spec a 1) as [-> | Hne]; reflexivity.
Qed.

Lemma broadcast_shapes_shrinks s1 s2 :
  shrinks s1 s2 -> broadcast_shapes s1 s2 = Some s1.
Proof.
  intros H. unfold broadcast_shapes.
  rewrite (broadcast_rev_shrinks _ _ (shrinks_rev _ _ H)).
  cbn [option_map]. now rewrite rev_involutive.
Qed.

Lemma py_index_lt d i k : py_index d i = Some k -> (k < d)%nat.
Proof.
  unfold py_index.
  destruct ((0 <=? i) && (i <? Z.of_nat d))%Z eqn:E1.
  - intros [= <-]. apply andb_prop in E1 as [H0 H1].
    apply Z.leb_le in H0. apply Z.ltb_lt in H1. lia.
  - destruct ((- Z.of_nat d <=? i) && (i <? 0))%Z eqn:E2; [| discriminate].
    intros [= <-]. apply andb_prop in E2 as [H0 H1].
    apply Z.leb_le in H0. apply Z.ltb_lt in H1. lia.
Qed.

(* ================================================================= *)
(** ** [normalize] *)

Lemma fiber_set_at a ax k idx :
  (ax < length idx)%nat -> fiber a ax (set_at ax k idx) = fiber a ax idx.
Proof.
  intros H. unfold fiber. apply map_ext. intros k'.
  now rewrite set_at_set_at.
Qed.

(** What [normalize] returns: every element is divided by the norm of
    its fibre along the axis, increased by [float32_eps]. *)
Lemma normalize_items a order axis ax :
  py_index (ndim a) axis = Some ax ->
  (order = ord_inf -> (1 <= nth ax (shape a) 0)%nat) ->
  exists r,
    normalize a order axis = Ok r /\ shape r = shape a /\
    forall idx, in_bounds idx (shape a) ->
      item r idx =
      item a idx / (vector_norm order (fiber a ax idx) + float32_eps).
Proof.
  intros Hax Hinf. pose proof (py_index_lt _ _ _ Hax) as Hlt. unfold ndim in Hlt.
  unfold normalize, linalg_norm. rewrite Hax.
  assert (E : match order, nth ax (shape a) 0%nat with
              | ord_inf, O => Raise ValueError
              | _, _ =>
                  Ok (mk_ndarray (set_at ax 1%nat (shape a))
                        (fun idx => vector_norm order (fiber a ax idx)))
              end
              = Ok (mk_ndarray (set_at ax 1%nat (shape a))
                      (fun idx => vector_norm order (fiber a ax idx)))).
  { destruct order; try reflexivity.
    destruct (nth ax (shape a) 0%nat) eqn:En; [| reflexivity].
    specialize (Hinf eq_refl). lia. }
  rewrite E. cbn [bind]. unfold broadcast2. cbn [shape arr_map].
  rewrite (broadcast_shapes_shrinks _ _ (shrinks_set_at ax (shape a) Hlt)).
  eexists. split; [reflexivity |]. split; [reflexivity |].
  intros idx Hidx. cbn [item].
  rewrite (bidx_in_bounds idx (shape a) Hidx).
  rewrite (bidx_keepdims ax idx (shape a) Hidx Hlt).
  unfold arr_map. cbn [item].
  rewrite fiber_set_at by (rewrite (in_bounds_length _ _ Hidx); exact Hlt).
  reflexivity.
Qed.

(** The fibre of the output through an index is the fibre of the input
    divided by its norm plus [float32_eps]. *)
Lemma normalize_fiber a order axis ax idx :
  py_index (ndim a) axis = Some ax -> in_bounds idx (shape a) ->
  exists r,
    normalize a order axis = Ok r /\ shape r = shape a /\
    fiber r ax idx =
    map (fun v => v / (vector_norm order (fiber a ax idx) + float32_eps))
        (fiber a ax idx).
Proof.
  intros Hax Hidx. pose proof (py_index_lt _ _ _ Hax) as Hlt. unfold ndim in Hlt.
  pose proof (in_bounds_nth idx (shape a) ax Hidx Hlt) as Hpos.
  destruct (normalize_items a order axis ax Hax) as (r & Hr & Hs & Hi);
    [intros _; lia |].
  exists r. split; [exact Hr |]. split; [exact Hs |].
  unfold fiber at 1 3. rewrite Hs, map_map. apply map_ext_in.
  intros k Hk. apply in_seq in Hk.
  rewrite Hi by (apply in_bounds_set_at; [exact Hidx | lia]).
  rewrite fiber_set_at by (rewrite (in_bounds_length _ _ Hidx); exact Hlt).
  reflexivity.
Qed.

Lemma normalize_fiber_norm a order axis ax idx :
  py_index (ndim a) axis = Some ax -> in_bounds idx (shape a) ->
  exists r,
    normalize a order axis = Ok r /\ shape r = shape a /\
    fiber r ax idx =
    map (fun v => v / (vector_norm order (fiber a ax idx) + float32_eps))
        (fiber a ax idx) /\
    vector_norm order (fiber r ax idx) =
    vector_norm order (fiber a ax idx)
    / (vector_norm order (fiber a ax idx) + float32_eps).
Proof.
  intros Hax Hidx.
  destruct (normalize_fiber a order axis ax idx Hax Hidx) as (r & Hr & Hs & Hf).
  exists r. split; [exact Hr |]. split; [exact Hs |]. split; [exact Hf |].
  rewrite Hf. apply vector_norm_div.
  pose proof (vector_norm_nonneg order (fiber a ax idx)).
  pose proof float32_eps_pos. lra.
Qed.

(** C6, as the code has it: along a valid axis [normalize] divides each
    fibre by [N + eps], where [N] is the norm of the fibre and
    [eps = 2^-23 > 0], so the divisor is never zero.  The norm of the
    output fibre is [N / (N + eps)]: for a fibre that is not zero it lies
    strictly between 0 and 1 and falls short of 1 by [eps / (N + eps)];
    a zero fibre is mapped to zeros. *)
Theorem normalize_norm a order axis ax idx :
  py_index (ndim a) axis = Some ax -> in_bounds idx (shape a) ->
  exists r N,
    N = vector_norm order (fiber a ax idx) /\
    normalize a order axis = Ok r /\ shape r = shape a /\
    0 < float32_eps <= N + float32_eps /\
    fiber r ax idx = map (fun v => v / (N + float32_eps)) (fiber a ax idx) /\
    vector_norm order (fiber r ax idx) = N / (N + float32_eps) /\
    (Exists (fun v => v <> 0) (fiber a ax idx) ->
     0 < vector_norm order (fiber r ax idx) < 1 /\
     1 - vector_norm order (fiber r ax idx) = float32_eps / (N + float32_eps)) /\
    (Forall (fun v => v = 0) (fiber a ax idx) ->
     Forall (fun v => v = 0) (fiber r ax idx)).
Proof.
  intros Hax Hidx.
  destruct (normalize_fiber_norm a order axis ax idx Hax Hidx)
    as (r & Hr & Hs & Hf & Hn).
  exists r, (vector_norm order (fiber a ax idx)).
  pose proof (vector_norm_nonneg order (fiber a ax idx)) as HN.
  pose proof float32_eps_pos as He.
  set (N := vector_norm order (fiber a ax idx)) in *.
  split; [reflexivity |]. split; [exact Hr |]. split; [exact Hs |].
  split; [lra |]. split; [exact Hf |]. split; [exact Hn |]. split.
  - intros Hnz. pose proof (vector_norm_pos order _ Hnz) as Hpos.
    fold N in Hpos. rewrite Hn.
    assert (Hinv : 0 < / (N + float32_eps)) by (apply Rinv_0_lt_compat; lra).
    assert (E : N / (N + float32_eps) = 1 - float32_eps / (N + float32_eps))
      by (field; lra).
    assert (Hq : 0 < float32_eps / (N + float32_eps))
      by (unfold Rdiv; nra).
    repeat split.
    + unfold Rdiv. nra.
    + lra.
    + lra.
  - intros Hz. rewrite Hf. apply Forall_map.
    apply Forall_impl with (2 := Hz). intros v ->. unfold Rdiv. lra.
Qed.

Lemma normalize_norm_witness :
  exists r N,
    N = vector_norm ord_2 (fiber (array1 [3; 4]) 0 [0%nat]) /\
    normalize (array1 [3; 4]) ord_2 0 = Ok r /\
    shape r = shape (array1 [3; 4]) /\
    0 < float32_eps <= N + float32_eps /\
    fiber r 0 [0%nat]
    = map (fun v => v / (N + float32_eps)) (fiber (array1 [3; 4]) 0 [0%nat]) /\
    vector_norm ord_2 (fiber r 0 [0%nat]) = N / (N + float32_eps) /\
    (Exists (fun v => v <> 0) (fiber (array1 [3; 4]) 0 [0%nat]) ->
     0 < vector_norm ord_2 (fiber r 0 [0%nat]) < 1 /\
     1 - vector_norm ord_2 (fiber r 0 [0%nat])
     = float32_eps / (N + float32_eps)) /\
    (Forall (fun v => v = 0) (fiber (array1 [3; 4]) 0 [0%nat]) ->
     Forall (fun v => v = 0) (fiber r 0 [0%nat])).
Proof.
  apply (normalize_norm (array1 [3; 4]) ord_2 0 0 [0%nat]).
  - reflexivity.
  - constructor; [simpl; lia | constructor].
Defined.

(** C6 as stated fails: the vector with the single element [float32_eps]
    is not zero, and the norm of its normalization is 1/2. *)
Lemma normalize_tiny_vector :
  exists r,
    normalize (array1 [float32_eps]) ord_2 0 = Ok r /\
    Exists (fun v => v <> 0) (fiber (array1 [float32_eps]) 0 [0%nat]) /\
    vector_norm ord_2 (fiber r 0 [0%nat]) = 1 / 2.
Proof.
  destruct (normalize_fiber_norm (array1 [float32_eps]) ord_2 0 0 [0%nat])
    as (r & Hr & _ & _ & Hn).
  { reflexivity. }
  { constructor; [simpl; lia | constructor]. }
  pose proof float32_eps_pos as He.
  exists r. split; [exact Hr |]. split.
  - left. simpl. lra.
  - rewrite Hn.
    assert (EN : vector_norm ord_2 (fiber (array1 [float32_eps]) 0 [0%nat])
                 = float32_eps).
    { unfold fiber, array1, set_at.
      cbn [shape item nth seq map length firstn skipn app hd vector_norm
           Rsum fold_right].
      rewrite Rabs_right by lra. rewrite Rplus_0_r. apply sqrt_square. lra. }
    rewrite EN. field. lra.
Qed.

(* ================================================================= *)
(** ** Splitting and joining *)

Lemma sum_sizes_app l1 l2 : sum_sizes (l1 ++ l2) = (sum_sizes l1 + sum_sizes l2)%nat.
Proof. induction l1 as [| x l1 IH]; simpl; [reflexivity | rewrite IH; lia]. Qed.

Lemma sum_sizes_repeat v n : sum_sizes (repeat v n) = (n * v)%nat.
Proof. induction n as [| n IH]; simpl; [reflexivity | rewrite IH; lia]. Qed.

Lemma split_points_slices a ax st sizes :
  map (fun i =>
         slice_axis a ax (nth i (st :: cumsum st sizes) 0%nat)
                         (nth (S i) (st :: cumsum st sizes) 0%nat))
      (seq 0 (length sizes))
  = slices_from a ax st sizes.
Proof.
  revert st. induction sizes as [| sz sizes IH]; intros st; [reflexivity |].
  cbn [length seq map cumsum slices_from nth]. f_equal.
  rewrite <- seq_shift, map_map. apply (IH (st + sz)%nat).
Qed.

(** The parts [np.array_split] returns. *)
Lemma array_split_slices ary sections axis ax :
  py_index (ndim ary) axis = Some ax -> (1 <= sections)%Z ->
  exists sizes,
    array_split ary sections axis = Ok (slices_from ary ax 0 sizes) /\
    length sizes = Z.to_nat sections /\
    sum_sizes sizes = nth ax (shape ary) 0%nat.
Proof.
  intros Hax Hk. unfold array_split. rewrite Hax.
  assert (E : (sections <=? 0)%Z = false) by (apply Z.leb_gt; lia).
  rewrite E. cbv zeta.
  set (K := Z.to_nat sections). set (L := nth ax (shape ary) 0%nat).
  assert (HK : (K <> 0)%nat) by (unfold K; lia).
  set (sizes := repeat (S (L / K)) (L mod K) ++ repeat (L / K)%nat (K - L mod K)).
  assert (Hlen : length sizes = K).
  { unfold sizes. rewrite length_app, !repeat_length.
    pose proof (Nat.mod_upper_bound L K HK). lia. }
  exists sizes. split; [| split].
  - f_equal. cbn [cumsum]. change (0 + 0)%nat with 0%nat.
    rewrite <- Hlen. apply split_points_slices.
  - exact Hlen.
  - unfold sizes. rewrite sum_sizes_app, !sum_sizes_repeat.
    pose proof (Nat.mod_upper_bound L K HK).
    pose proof (Nat.div_mod_eq L K). nia.
Qed.

Lemma mapM_slices (F : ndarray -> result ndarray) t ax z c L sizes st :
  (forall st en, (st <= en)%nat -> (en <= L)%nat ->
     exists zp, F (slice_axis t ax st en) = Ok zp /\
                arr_eq zp (slice_axis z c st en)) ->
  (st + sum_sizes sizes <= L)%nat ->
  exists zs,
    mapM F (slices_from t ax st sizes) = Ok zs /\
    Forall2 arr_eq zs (slices_from z c st sizes).
Proof.
  intros HF. revert st. induction sizes as [| sz sizes IH]; intros st Hle.
  - exists []. split; [reflexivity | constructor].
  - cbn [sum_sizes fold_right] in Hle. fold (sum_sizes sizes) in Hle.
    destruct (HF st (st + sz)%nat) as (zp & Hzp & Heq); [lia | lia |].
    destruct (IH (st + sz)%nat) as (zs & Hzs & Hall); [lia |].
    exists (zp :: zs). split.
    + cbn [slices_from mapM]. rewrite Hzp. cbn [bind]. rewrite Hzs. reflexivity.
    + cbn [slices_from]. constructor; assumption.
Qed.

Lemma in_bounds_set_at_iff c idx s v w :
  (c < length s)%nat ->
  in_bounds (set_at c v idx) (set_at c w s) <->
  (v < w)%nat /\ in_bounds (set_at c 0%nat idx) (set_at c 1%nat s).
Proof.
  unfold in_bounds. revert c idx.
  induction s as [| d s IH]; intros c idx Hc; [simpl in Hc; lia |].
  destruct c as [| c].
  - unfold set_at. cbn [firstn skipn app]. split.
    + intros H. inversion H; subst. split; [assumption |].
      constructor; [lia | assumption].
    + intros [Hvw H]. inversion H; subst. constructor; assumption.
  - destruct idx as [| i idx].
    + unfold set_at. cbn [firstn skipn app]. split.
      * intros H. apply Forall2_length in H.
        cbn [length] in H. rewrite length_app in H. cbn [length] in H. lia.
      * intros [_ H]. apply Forall2_length in H.
        cbn [length] in H. rewrite length_app in H. cbn [length] in H. lia.
    + assert (Hc' : (c < length s)%nat) by (simpl in Hc; lia).
      specialize (IH c idx Hc'). unfold set_at in *.
      cbn [firstn skipn app]. split.
      * intros H. inversion H; subst.
        match goal with
        | H1 : Forall2 lt (firstn c idx ++ _) _ |- _ =>
            apply IH in H1; destruct H1 as [Hvw H1]
        end.
        split; [exact Hvw |]. constructor; assumption.
      * intros [Hvw H]. inversion H; subst. constructor; [assumption |].
        apply IH. split; assumption.
Qed.

Lemma shape_slice_axis a ax st sz :
  shape (slice_axis a ax st (st + sz)) = set_at ax sz (shape a).
Proof.
  unfold slice_axis. cbn [shape]. f_equal. lia.
Qed.

Lemma shapes_of_slices z c st sizes zs :
  Forall2 arr_eq zs (slices_from z c st sizes) ->
  map shape zs = map (fun sz => set_at c sz (shape z)) sizes.
Proof.
  revert st zs. induction sizes as [| sz sizes IH]; intros st zs H.
  - inversion H. reflexivity.
  - cbn [slices_from] in H. inversion H as [| a b zs' l' Hab Hrest]; subst.
    cbn [map]. f_equal.
    + destruct Hab as [Hs _]. rewrite Hs. apply shape_slice_axis.
    + now apply (IH (st + sz)%nat).
Qed.

Lemma concat_item_slices z c sizes :
  (c < length (shape z))%nat ->
  forall st zs idx,
    Forall2 arr_eq zs (slices_from z c st sizes) ->
    length idx = length (shape z) ->
    in_bounds (set_at c 0%nat idx) (set_at c 1%nat (shape z)) ->
    (nth c idx 0 < sum_sizes sizes)%nat ->
    concat_item zs c idx = item z (set_at c (st + nth c idx 0)%nat idx).
Proof.
  intros Hc. induction sizes as [| sz sizes IH]; intros st zs idx H Hlen Hoff Hk.
  - simpl in Hk. lia.
  - cbn [slices_from] in H. inversion H as [| a b zs' l' Hab Hrest]; subst.
    cbn [sum_sizes fold_right] in Hk. fold (sum_sizes sizes) in Hk.
    destruct Hab as [Hsa Hia]. rewrite shape_slice_axis in Hsa.
    cbn [concat_item]. rewrite Hsa, nth_set_at_same by exact Hc.
    assert (Hci : (c < length idx)%nat) by lia.
    destruct (Nat.ltb_spec (nth c idx 0%nat) sz) as [Hlt | Hge].
    + rewrite Hia; [reflexivity |].
      rewrite Hsa. rewrite <- (set_at_nth c idx 0%nat Hci).
      apply in_bounds_set_at_iff; [exact Hc |]. split; [exact Hlt |].
      exact Hoff.
    + rewrite (IH (st + sz)%nat zs' _ Hrest).
      * rewrite set_at_set_at by exact Hci.
        rewrite nth_set_at_same by exact Hci. f_equal. f_equal. lia.
      * rewrite length_set_at by exact Hci. exact Hlen.
      * now rewrite set_at_set_at.
      * rewrite nth_set_at_same by exact Hci. lia.
Qed.

Lemma same_off_axis_set_at c u v s :
  (c < length s)%nat -> same_off_axis c (set_at c u s) (set_at c v s) = true.
Proof.
  intros Hc. unfold same_off_axis.
  rewrite !length_set_at by exact Hc. rewrite Nat.eqb_refl. cbn [andb].
  apply forallb_forall. intros k _.
  destruct (Nat.eqb_spec k c) as [-> | Hne]; [reflexivity |].
  cbn [orb]. rewrite !nth_set_at_other by assumption. apply Nat.eqb_refl.
Qed.

Lemma in_bounds_off_axis c idx s :
  (c < length s)%nat -> in_bounds idx s ->
  in_bounds (set_at c 0%nat idx) (set_at c 1%nat s).
Proof.
  intros Hc H. pose proof (in_bounds_length _ _ H) as Hlen.
  assert (H' : in_bounds (set_at c (nth c idx 0%nat) idx)
                         (set_at c (nth c s 0%nat) s))
    by (rewrite !set_at_nth by lia; exact H).
  apply in_bounds_set_at_iff in H'; [tauto | exact Hc].
Qed.

(** Joining the consecutive slices of [z] gives [z] back. *)
Lemma np_concatenate_slices z c sizes zs :
  (c < ndim z)%nat -> sizes <> [] ->
  Forall2 arr_eq zs (slices_from z c 0 sizes) ->
  sum_sizes sizes = nth c (shape z) 0%nat ->
  exists r, np_concatenate zs c = Ok r /\ arr_eq r z.
Proof.
  unfold ndim. intros Hc Hne Hall Hsum.
  pose proof (shapes_of_slices z c 0 sizes zs Hall) as Hshapes.
  assert (Htotal : fold_right Nat.add 0%nat
                     (map (fun a => nth c (shape a) 0%nat) zs)
                   = nth c (shape z) 0%nat).
  { rewrite <- Hsum.
    rewrite <- map_map with (f := shape) (g := fun s => nth c s 0%nat).
    rewrite Hshapes, map_map. unfold sum_sizes. f_equal.
    rewrite <- (map_id sizes) at 2. apply map_ext.
    intros s. now apply nth_set_at_same. }
  destruct sizes as [| sz sizes]; [congruence |].
  destruct zs as [| a0 zs]; [inversion Hall |].
  assert (Hs0 : shape a0 = set_at c sz (shape z))
    by (cbn [map] in Hshapes; congruence).
  unfold np_concatenate, ndim. rewrite Htotal, Hs0.
  rewrite length_set_at by exact Hc.
  destruct (Nat.eqb_spec (length (shape z)) 0) as [E0 | _]; [lia |].
  destruct (Nat.leb_spec (length (shape z)) c) as [Hle | _]; [lia |].
  assert (Hsame : forallb (fun a => same_off_axis c (set_at c sz (shape z)) (shape a))
                          (a0 :: zs) = true).
  { apply forallb_forall. intros a Ha.
    assert (Hin : In (shape a) (map shape (a0 :: zs))) by now apply in_map.
    rewrite Hshapes in Hin.
    apply in_map_iff in Hin as (s & <- & _).
    now apply same_off_axis_set_at. }
  rewrite Hsame.
  eexists. split; [reflexivity |]. split.
  - cbn [shape]. rewrite set_at_set_at by exact Hc. now apply set_at_nth.
  - intros idx Hidx. cbn [shape item] in *.
    rewrite set_at_set_at, set_at_nth in Hidx by exact Hc.
    pose proof (in_bounds_length _ _ Hidx) as Hlen.
    rewrite (concat_item_slices z c (sz :: sizes) Hc 0 (a0 :: zs) idx Hall Hlen).
    + cbn [Nat.add]. now rewrite set_at_nth by lia.
    + now apply in_bounds_off_axis.
    + rewrite Hsum. now apply in_bounds_nth.
Qed.

(* ================================================================= *)
(** ** [low_memory_matrix_op] *)

Lemma low_memory_matrix_op_unfold x y func s axis k verbose :
  low_memory_matrix_op x y func s axis k verbose =
  (parts <- array_split (to_split s x y) k axis ;;
   mat <- mapM (call_on_part func s x y) parts ;;
   np_concatenate mat (axis_to_concat s)).
Proof. reflexivity. Qed.

(** With a function that works slice by slice, any number of parts from 1
    on gives the matrix [z] back. *)
Lemma low_memory_matrix_op_slices x y func s axis k verbose ax z :
  py_index (ndim (to_split s x y)) axis = Some ax ->
  (1 <= k)%Z ->
  (axis_to_concat s < ndim z)%nat ->
  nth (axis_to_concat s) (shape z) 0%nat
  = nth ax (shape (to_split s x y)) 0%nat ->
  slice_compatible func s x y ax z ->
  exists r,
    low_memory_matrix_op x y func s axis k verbose = Ok r /\ arr_eq r z.
Proof.
  intros Hax Hk Hc HL Hf. rewrite low_memory_matrix_op_unfold.
  destruct (array_split_slices (to_split s x y) k axis ax Hax Hk)
    as (sizes & -> & Hlen & Hsum).
  cbn [bind].
  destruct (mapM_slices (call_on_part func s x y) (to_split s x y) ax z
              (axis_to_concat s) (nth ax (shape (to_split s x y)) 0%nat)
              sizes 0 Hf) as (zs & -> & Hall); [lia |].
  cbn [bind].
  apply (np_concatenate_slices z (axis_to_concat s) sizes zs Hc).
  - intros ->. simpl in Hlen. lia.
  - exact Hall.
  - now rewrite Hsum.
Qed.

(** C4, as the code has it: when [func] works slice by slice along the
    split axis, and [func(x, y)] is the matrix [z] whose joining axis has
    the length of the split axis, [low_memory_matrix_op] returns a matrix
    elementwise equal to [z] for every split count in
    [1, length of the split axis]. *)
Theorem low_memory_matrix_op_equiv x y func s axis k verbose ax z :
  py_index (ndim (to_split s x y)) axis = Some ax ->
  (1 <= k <= Z.of_nat (nth ax (shape (to_split s x y)) 0%nat))%Z ->
  func x y = Ok z ->
  (axis_to_concat s < ndim z)%nat ->
  nth (axis_to_concat s) (shape z) 0%nat
  = nth ax (shape (to_split s x y)) 0%nat ->
  slice_compatible func s x y ax z ->
  exists r,
    low_memory_matrix_op x y func s axis k verbose = Ok r /\ arr_eq r z.
Proof.
  intros Hax [Hk _] _ Hc HL Hf.
  now apply (low_memory_matrix_op_slices x y func s axis k verbose ax z).
Qed.

Lemma row_slice_axis x m n st en i :
  shape x = [m; n] -> row (slice_axis x 0 st en) i = row x (st + i).
Proof.
  intros Hx. unfold row, slice_axis, set_at. cbn [shape item firstn skipn app nth].
  rewrite Hx. reflexivity.
Qed.

(** The euclidean mode works row by row of its first operand. *)
Lemma euclidean_dist_by_rows x y m1 m2 n z :
  shape x = [m1; n] -> shape y = [m2; n] -> euclidean_dist x y = Ok z ->
  slice_compatible euclidean_dist "x"%string x y 0 z.
Proof.
  intros Hx Hy Hz st en Hle Hen.
  change (to_split "x"%string x y) with x in *.
  change (axis_to_concat "x"%string) with 0%nat.
  change (call_on_part euclidean_dist "x"%string x y (slice_axis x 0 st en))
    with (compute_dist (slice_axis x 0 st en) y "euclidean"%string).
  rewrite Hx in Hen. cbn [nth] in Hen.
  destruct (compute_dist_euclidean_2d x y m1 m2 n Hx Hy) as (D & HD & HsD & HiD).
  unfold euclidean_dist in Hz. rewrite HD in Hz. injection Hz as <-.
  destruct (compute_dist_euclidean_2d (slice_axis x 0 st en) y (en - st) m2 n)
    as (zp & Hzp & Hszp & Hizp).
  { unfold slice_axis, set_at. cbn [shape firstn skipn app]. now rewrite Hx. }
  { exact Hy. }
  exists zp. split; [exact Hzp |]. split.
  - rewrite Hszp. unfold slice_axis, set_at. cbn [shape firstn skipn app].
    now rewrite HsD.
  - intros idx Hidx. rewrite Hszp in Hidx.
    inversion Hidx as [| i d1 idx1 s1 Hi Hrest]; subst.
    inversion Hrest as [| j d2 idx2 s2 Hj Hnil]; subst.
    inversion Hnil; subst.
    rewrite Hizp by assumption.
    unfold slice_axis at 2. unfold set_at. cbn [item firstn skipn app nth].
    rewrite HiD by lia.
    now rewrite (row_slice_axis x m1 n st en i Hx).
Qed.

(** It works row by row of its second operand as well: the rows of [y]
    are the columns of the result. *)
Lemma euclidean_dist_by_cols x y m1 m2 n z :
  shape x = [m1; n] -> shape y = [m2; n] -> euclidean_dist x y = Ok z ->
  slice_compatible euclidean_dist "y"%string x y 0 z.
Proof.
  intros Hx Hy Hz st en Hle Hen.
  change (to_split "y"%string x y) with y in *.
  change (axis_to_concat "y"%string) with 1%nat.
  change (call_on_part euclidean_dist "y"%string x y (slice_axis y 0 st en))
    with (compute_dist x (slice_axis y 0 st en) "euclidean"%string).
  rewrite Hy in Hen. cbn [nth] in Hen.
  destruct (compute_dist_euclidean_2d x y m1 m2 n Hx Hy) as (D & HD & HsD & HiD).
  unfold euclidean_dist in Hz. rewrite HD in Hz. injection Hz as <-.
  destruct (compute_dist_euclidean_2d x (slice_axis y 0 st en) m1 (en - st) n)
    as (zp & Hzp & Hszp & Hizp).
  { exact Hx. }
  { unfold slice_axis, set_at. cbn [shape firstn skipn app]. now rewrite Hy. }
  exists zp. split; [exact Hzp |]. split.
  - rewrite Hszp. unfold slice_axis, set_at. cbn [shape firstn skipn app].
    now rewrite HsD.
  - intros idx Hidx. rewrite Hszp in Hidx.
    inversion Hidx as [| i d1 idx1 s1 Hi Hrest]; subst.
    inversion Hrest as [| j d2 idx2 s2 Hj Hnil]; subst.
    inversion Hnil; subst.
    rewrite Hizp by assumption.
    unfold slice_axis at 2. unfold set_at. cbn [item firstn skipn app nth].
    rewrite HiD by lia.
    now rewrite (row_slice_axis y m2 n st en j Hy).
Qed.

Lemma low_memory_matrix_op_equiv_witness :
  exists z r,
    euclidean_dist two_rows_one_feature one_row_one_feature = Ok z /\
    low_memory_matrix_op two_rows_one_feature one_row_one_feature
      euclidean_dist "x"%string 0 2 false = Ok r /\
    arr_eq r z.
Proof.
  destruct (compute_dist_euclidean_2d two_rows_one_feature one_row_one_feature
              2 1 1 eq_refl eq_refl) as (z & Hz & Hsz & _).
  exists z.
  destruct (low_memory_matrix_op_equiv
              two_rows_one_feature one_row_one_feature
              euclidean_dist "x"%string 0 2 false 0 z) as (r & Hr & Heq).
  - reflexivity.
  - simpl. lia.
  - exact Hz.
  - change (axis_to_concat "x"%string) with 0%nat.
    unfold ndim. rewrite Hsz. simpl. lia.
  - change (axis_to_concat "x"%string) with 0%nat.
    rewrite Hsz. reflexivity.
  - apply (euclidean_dist_by_rows two_rows_one_feature one_row_one_feature
             2 1 1 z eq_refl eq_refl Hz).
  - exists r. split; [exact Hz |]. split; [exact Hr | exact Heq].
Defined.

(** C4 as stated fails: splitting [x] of shape [1, 2] along its feature
    axis into 2 parts, a split count inside [1, 2], makes
    [low_memory_matrix_op] raise although [euclidean_dist x x] succeeds. *)
Lemma low_memory_matrix_op_feature_axis :
  (exists z, euclidean_dist one_row_two_features one_row_two_features = Ok z) /\
  low_memory_matrix_op one_row_two_features one_row_two_features
    euclidean_dist "x"%string 1 2 false = Raise ValueError.
Proof.
  split.
  - destruct (compute_dist_euclidean_2d one_row_two_features
                one_row_two_features 1 1 2 eq_refl eq_refl) as (z & Hz & _).
    now exists z.
  - rewrite low_memory_matrix_op_unfold.
    change (array_split (to_split "x"%string one_row_two_features
                                  one_row_two_features) 2 1)
      with (Ok (slices_from one_row_two_features 1 0 [1%nat; 1%nat])).
    cbn [bind slices_from mapM].
    change (call_on_part euclidean_dist "x"%string one_row_two_features
              one_row_two_features
              (slice_axis one_row_two_features 1 0 (0 + 1)))
      with (compute_dist (slice_axis one_row_two_features 1 0 (0 + 1))
              one_row_two_features "euclidean"%string).
    rewrite (compute_dist_inner_mismatch _ _ 1 1 1 2 "euclidean"%string);
      [reflexivity | reflexivity | reflexivity | lia | now left].
Qed.

(** C10 as stated fails: a split count of 2 on an axis of length 1 is
    outside [1, 1] and [low_memory_matrix_op] returns a matrix. *)
Lemma low_memory_matrix_op_excess_split :
  (Z.of_nat (nth 0 (shape one_row_one_feature) 0%nat) < 2)%Z /\
  exists r,
    low_memory_matrix_op one_row_one_feature one_row_one_feature
      euclidean_dist "x"%string 0 2 false = Ok r.
Proof.
  split; [simpl; lia |].
  destruct (compute_dist_euclidean_2d one_row_one_feature one_row_one_feature
              1 1 1 eq_refl eq_refl) as (z & Hz & Hsz & _).
  destruct (low_memory_matrix_op_slices
              one_row_one_feature one_row_one_feature
              euclidean_dist "x"%string 0 2 false 0 z) as (r & Hr & _).
  - reflexivity.
  - lia.
  - change (axis_to_concat "x"%string) with 0%nat.
    unfold ndim. rewrite Hsz. simpl. lia.
  - change (axis_to_concat "x"%string) with 0%nat.
    rewrite Hsz. reflexivity.
  - apply (euclidean_dist_by_rows one_row_one_feature one_row_one_feature
             1 1 1 z eq_refl eq_refl Hz).
  - now exists r.
Qed.

(* ================================================================= *)
(** ** Further properties of [shortest_dist] *)

Lemma acc_constant v i j :
  acc (fun _ _ => v) i j = INR (i + j + 1) * v.
Proof.
  revert j. induction i as [| i IHi].
  - induction j as [| j IHj].
    + rewrite acc_0_0. simpl. lra.
    + rewrite acc_0_S, IHj.
      replace (0 + S j + 1)%nat with (S (0 + j + 1)) by lia.
      rewrite S_INR. lra.
  - induction j as [| j IHj].
    + rewrite acc_S_0, IHi.
      replace (S i + 0 + 1)%nat with (S (i + 0 + 1)) by lia.
      rewrite S_INR. lra.
    + rewrite acc_S_S, IHi, IHj.
      replace (i + S j + 1)%nat with (S i + j + 1)%nat by lia.
      unfold Rmin. destruct (Rle_dec _ _);
        replace (S i + S j + 1)%nat with (S (S i + j + 1)) by lia;
        rewrite S_INR; lra.
Qed.

Lemma acc_monotone c c' i j :
  (forall i' j', (i' <= i)%nat -> (j' <= j)%nat -> c i' j' <= c' i' j') ->
  acc c i j <= acc c' i j.
Proof.
  revert j. induction i as [| i IHi].
  - induction j as [| j IHj]; intros H.
    + rewrite !acc_0_0. apply H; lia.
    + rewrite !acc_0_S.
      assert (acc c 0 j <= acc c' 0 j) by (apply IHj; intros; apply H; lia).
      assert (c 0%nat (S j) <= c' 0%nat (S j)) by (apply H; lia). lra.
  - induction j as [| j IHj]; intros H.
    + rewrite !acc_S_0.
      assert (acc c i 0 <= acc c' i 0) by (apply IHi; intros; apply H; lia).
      assert (c (S i) 0%nat <= c' (S i) 0%nat) by (apply H; lia). lra.
    + rewrite !acc_S_S.
      assert (H1 : acc c i (S j) <= acc c' i (S j))
        by (apply IHi; intros; apply H; lia).
      assert (H2 : acc c (S i) j <= acc c' (S i) j)
        by (apply IHj; intros; apply H; lia).
      assert (H3 : c (S i) (S j) <= c' (S i) (S j)) by (apply H; lia).
      assert (Rmin (acc c i (S j)) (acc c (S i) j)
              <= Rmin (acc c' i (S j)) (acc c' (S i) j)).
      { apply Rmin_glb.
        - pose proof (Rmin_l (acc c i (S j)) (acc c (S i) j)). lra.
        - pose proof (Rmin_r (acc c i (S j)) (acc c (S i) j)). lra. }
      lra.
Qed.

Lemma acc_strict_upper c hi i j :
  (forall i' j', (i' <= i)%nat -> (j' <= j)%nat -> c i' j' < hi) ->
  acc c i j < INR (i + j + 1) * hi.
Proof.
  revert j. induction i as [| i IHi].
  - induction j as [| j IHj]; intros H.
    + rewrite acc_0_0. simpl.
      pose proof (H 0%nat 0%nat (le_n _) (le_n _)). lra.
    + rewrite acc_0_S.
      assert (acc c 0 j < INR (0 + j + 1) * hi)
        by (apply IHj; intros; apply H; lia).
      assert (c 0%nat (S j) < hi) by (apply H; lia).
      replace (0 + S j + 1)%nat with (S (0 + j + 1)) by lia.
      rewrite S_INR. lra.
  - induction j as [| j IHj]; intros H.
    + rewrite acc_S_0.
      assert (acc c i 0 < INR (i + 0 + 1) * hi)
        by (apply IHi; intros; apply H; lia).
      assert (c (S i) 0%nat < hi) by (apply H; lia).
      replace (S i + 0 + 1)%nat with (S (i + 0 + 1)) by lia.
      rewrite S_INR. lra.
    + rewrite acc_S_S.
      assert (H2 : acc c (S i) j < INR (S i + j + 1) * hi)
        by (apply IHj; intros; apply H; lia).
      assert (H3 : c (S i) (S j) < hi) by (apply H; lia).
      pose proof (Rmin_r (acc c i (S j)) (acc c (S i) j)).
      replace (S i + S j + 1)%nat with (S (S i + j + 1)) by lia.
      rewrite S_INR. lra.
Qed.

Lemma mono_path_length i j p : mono_path i j p -> length p = (i + j + 1)%nat.
Proof.
  induction 1 as [| i j p _ IH | i j p _ IH]; cbn [length];
    [reflexivity | rewrite IH; lia | rewrite IH; lia].
Qed.

Lemma mono_path_cells i j p a b :
  mono_path i j p -> In (a, b) p -> (a <= i)%nat /\ (b <= j)%nat.
Proof.
  induction 1 as [| i j p _ IH | i j p _ IH]; intros Hin.
  - destruct Hin as [[= <- <-] | []]. lia.
  - destruct Hin as [[= <- <-] | Hin]; [lia |]. specialize (IH Hin). lia.
  - destruct Hin as [[= <- <-] | Hin]; [lia |]. specialize (IH Hin). lia.
Qed.

(** X1: on a grid whose costs all equal [c] in a batch slice,
    [shortest_dist] returns [(m + n - 1) * c] for that slice: every
    monotonic path visits [m + n - 1] cells. *)
Theorem shortest_dist_constant dist_mat m n extra e c :
  shape dist_mat = m :: n :: extra -> (1 <= m)%nat -> (1 <= n)%nat ->
  (forall i j, (i < m)%nat -> (j < n)%nat -> item dist_mat (i :: j :: e) = c) ->
  exists r,
    shortest_dist dist_mat = Ok r /\ item r e = INR (m + n - 1) * c.
Proof.
  intros Hs Hm Hn Hc.
  destruct (shortest_dist_ok dist_mat m n extra Hs Hm Hn) as (r & Hr & _ & Hi).
  exists r. split; [exact Hr |]. rewrite Hi.
  rewrite (acc_ext _ (fun _ _ => c)).
  - rewrite acc_constant. f_equal. f_equal. lia.
  - intros i j Hi' Hj'. unfold cost_at. apply Hc; lia.
Qed.

Lemma shortest_dist_constant_witness :
  exists r,
    shortest_dist (array2 2 [[5; 5]; [5; 5]]) = Ok r /\
    item r [] = INR (2 + 2 - 1) * 5.
Proof.
  apply (shortest_dist_constant (array2 2 [[5; 5]; [5; 5]]) 2 2 [] [] 5).
  - reflexivity.
  - lia.
  - lia.
  - intros i j Hi Hj.
    destruct i as [| [| i]]; [| | lia]; destruct j as [| [| j]];
      try lia; reflexivity.
Defined.

(** X2: [shortest_dist] is monotone in the costs: when every cost of a
    batch slice of [a] is at most the cost of [b] at the same cell, the
    result for [a] is at most the result for [b]. *)
Theorem shortest_dist_monotone a b m n extra e :
  shape a = m :: n :: extra -> shape b = m :: n :: extra ->
  (1 <= m)%nat -> (1 <= n)%nat ->
  (forall i j, (i < m)%nat -> (j < n)%nat ->
     item a (i :: j :: e) <= item b (i :: j :: e)) ->
  exists ra rb,
    shortest_dist a = Ok ra /\ shortest_dist b = Ok rb /\
    item ra e <= item rb e.
Proof.
  intros Ha Hb Hm Hn Hle.
  destruct (shortest_dist_ok a m n extra Ha Hm Hn) as (ra & Hra & _ & Hia).
  destruct (shortest_dist_ok b m n extra Hb Hm Hn) as (rb & Hrb & _ & Hib).
  exists ra, rb. split; [exact Hra |]. split; [exact Hrb |].
  rewrite Hia, Hib. apply acc_monotone.
  intros i j Hi Hj. unfold cost_at. apply Hle; lia.
Qed.

Lemma shortest_dist_monotone_witness :
  exists ra rb,
    shortest_dist (array2 2 [[1; 2]; [3; 4]]) = Ok ra /\
    shortest_dist (array2 2 [[1; 5]; [3; 4]]) = Ok rb /\
    item ra [] <= item rb [].
Proof.
  apply (shortest_dist_monotone (array2 2 [[1; 2]; [3; 4]])
           (array2 2 [[1; 5]; [3; 4]]) 2 2 [] []).
  - reflexivity.
  - reflexivity.
  - lia.
  - lia.
  - intros i j Hi Hj.
    destruct i as [| [| i]]; [| | lia]; destruct j as [| [| j]];
      try lia; simpl; lra.
Defined.

(** X3: when the costs of a batch slice lie between [lo] and [hi],
    [shortest_dist] returns a value between [(m + n - 1) * lo] and
    [(m + n - 1) * hi] for that slice. *)
Theorem shortest_dist_bounds dist_mat m n extra e lo hi :
  shape dist_mat = m :: n :: extra -> (1 <= m)%nat -> (1 <= n)%nat ->
  (forall i j, (i < m)%nat -> (j < n)%nat ->
     lo <= item dist_mat (i :: j :: e) <= hi) ->
  exists r,
    shortest_dist dist_mat = Ok r /\
    INR (m + n - 1) * lo <= item r e <= INR (m + n - 1) * hi.
Proof.
  intros Hs Hm Hn Hb.
  destruct (shortest_dist_ok dist_mat m n extra Hs Hm Hn) as (r & Hr & _ & Hi).
  exists r. split; [exact Hr |]. rewrite Hi.
  replace (m + n - 1)%nat with ((m - 1) + (n - 1) + 1)%nat by lia.
  rewrite <- !acc_constant. split.
  - apply acc_monotone. intros i j Hi' Hj'. unfold cost_at. apply Hb; lia.
  - apply acc_monotone. intros i j Hi' Hj'. unfold cost_at. apply Hb; lia.
Qed.

Lemma shortest_dist_bounds_witness :
  exists r,
    shortest_dist (array2 2 [[1; 2]; [3; 4]]) = Ok r /\
    INR (2 + 2 - 1) * 1 <= item r [] <= INR (2 + 2 - 1) * 4.
Proof.
  apply (shortest_dist_bounds (array2 2 [[1; 2]; [3; 4]]) 2 2 [] [] 1 4).
  - reflexivity.
  - lia.
  - lia.
  - intros i j Hi Hj.
    destruct i as [| [| i]]; [| | lia]; destruct j as [| [| j]];
      try lia; simpl; lra.
Defined.

(* ================================================================= *)
(** ** The squashing of a distance *)

Lemma squash_alt e : squash e = 1 - 2 / (exp e + 1).
Proof.
  unfold squash. pose proof (exp_pos e). field. lra.
Qed.

Lemma exp_ge_1 e : 0 <= e -> 1 <= exp e.
Proof.
  intros [Hlt | <-].
  - pose proof (exp_ineq1 e). lra.
  - rewrite exp_0. lra.
Qed.

(** X4: the local cost [(exp e - 1) / (exp e + 1)] of a distance [e >= 0]
    lies in [0, 1), and it grows strictly with the distance. *)
Theorem squash_range_increasing :
  (forall e, 0 <= e -> 0 <= squash e < 1) /\
  (forall e1 e2, e1 < e2 -> squash e1 < squash e2).
Proof.
  split.
  - intros e He. pose proof (exp_ge_1 e He) as H1.
    assert (Hinv : 0 < / (exp e + 1)) by (apply Rinv_0_lt_compat; lra).
    split.
    + unfold squash, Rdiv. apply Rmult_le_pos; lra.
    + rewrite squash_alt. unfold Rdiv. lra.
  - intros e1 e2 Hlt. rewrite !squash_alt.
    pose proof (exp_pos e1). pose proof (exp_increasing e1 e2 Hlt) as Hexp.
    assert (/ (exp e2 + 1) < / (exp e1 + 1))
      by (apply Rinv_lt_contravar; nra).
    unfold Rdiv. lra.
Qed.

Lemma squash_range_increasing_witness :
  0 <= squash 1 < 1 /\ squash 0 < squash 1.
Proof.
  split.
  - apply (proj1 squash_range_increasing 1). lra.
  - apply (proj2 squash_range_increasing 0 1). lra.
Defined.

(* ================================================================= *)
(** ** Further properties of [compute_dist] *)

(** X5: a mode other than ['cosine'] and ['euclidean'] makes
    [compute_dist] raise [AssertionError], whatever the arrays. *)
Theorem compute_dist_invalid_type array1 array2 type :
  type <> "cosine"%string -> type <> "euclidean"%string ->
  compute_dist array1 array2 type = Raise AssertionError.
Proof.
  intros Hc He. unfold compute_dist, type_in_cosine_euclidean.
  apply String.eqb_neq in Hc. apply String.eqb_neq in He.
  rewrite Hc, He. reflexivity.
Qed.

Lemma compute_dist_invalid_type_witness :
  compute_dist (array2 1 [[0]]) (array2 1 [[1]]) "manhattan"%string
  = Raise AssertionError.
Proof.
  apply (compute_dist_invalid_type (array2 1 [[0]]) (array2 1 [[1]])
           "manhattan"%string); discriminate.
Defined.

Lemma py_index_1_low d : (d < 2)%nat -> py_index d 1 = None.
Proof.
  intros Hd. destruct d as [| [| d]]; [reflexivity | reflexivity | lia].
Qed.

Lemma py_index_1_high d : (2 <= d)%nat -> py_index d 1 = Some 1%nat.
Proof.
  intros Hd. unfold py_index. change (0 <=? 1)%Z with true.
  assert (H : (1 <? Z.of_nat d)%Z = true) by (apply Z.ltb_lt; lia).
  rewrite H. reflexivity.
Qed.

Lemma np_sum_axis1_low a : (ndim a < 2)%nat -> np_sum a 1 = Raise AxisError.
Proof.
  intros H. unfold np_sum. now rewrite py_index_1_low.
Qed.

Lemma np_sum_axis1_high a :
  (2 <= ndim a)%nat -> exists s, np_sum a 1 = Ok s.
Proof.
  intros H. unfold np_sum. rewrite py_index_1_high by exact H.
  eexists. reflexivity.
Qed.

Lemma normalize_axis1_low a order :
  (ndim a < 2)%nat -> normalize a order 1 = Raise AxisError.
Proof.
  intros H. unfold normalize, linalg_norm. now rewrite py_index_1_low.
Qed.

(** X6: in both modes [compute_dist] raises [AxisError] when one of the
    two arrays has fewer than two dimensions: the reduction along axis 1
    does not exist. *)
Theorem compute_dist_low_rank array1 array2 type :
  type = "euclidean"%string \/ type = "cosine"%string ->
  (ndim array1 < 2)%nat \/ (ndim array2 < 2)%nat ->
  compute_dist array1 array2 type = Raise AxisError.
Proof.
  intros Htype Hrank.
  destruct (Nat.lt_ge_cases (ndim array1) 2) as [H1 | H1].
  - destruct Htype as [-> | ->]; unfold compute_dist.
    + rewrite type_euclidean_ok, euclidean_not_cosine. cbn [negb].
      rewrite np_sum_axis1_low by exact H1. reflexivity.
    + rewrite type_cosine_ok. cbn [negb].
      change (String.eqb "cosine"%string "cosine"%string) with true. cbv iota.
      rewrite normalize_axis1_low by exact H1. reflexivity.
  - destruct Hrank as [Hlow | H2]; [lia |].
    destruct Htype as [-> | ->]; unfold compute_dist.
    + rewrite type_euclidean_ok, euclidean_not_cosine. cbn [negb].
      destruct (np_sum_axis1_high (np_square array1) H1) as (s & ->).
      cbn [bind]. rewrite np_sum_axis1_low by exact H2. reflexivity.
    + rewrite type_cosine_ok. cbn [negb].
      change (String.eqb "cosine"%string "cosine"%string) with true. cbv iota.
      destruct (normalize_items array1 ord_2 1 1 (py_index_1_high _ H1))
        as (r & -> & _); [discriminate |].
      cbn [bind]. rewrite normalize_axis1_low by exact H2. reflexivity.
Qed.

Lemma compute_dist_low_rank_witness :
  compute_dist (array2 1 [[0]]) (array1 [1]) "cosine"%string
  = Raise AxisError.
Proof.
  apply (compute_dist_low_rank (array2 1 [[0]]) (array1 [1]) "cosine"%string).
  - right. reflexivity.
  - right. unfold ndim. simpl. lia.
Defined.

Lemma euclidean_distance_sym u v :
  euclidean_distance u v = euclidean_distance v u.
Proof.
  unfold euclidean_distance. f_equal.
  revert v. induction u as [| x u IH]; intros [| y v]; simpl; try reflexivity.
  rewrite IH. lra.
Qed.

(** X7: the euclidean mode is symmetric: entry [i, j] of
    [compute_dist(A, B)] is entry [j, i] of [compute_dist(B, A)]. *)
Theorem compute_dist_euclidean_symmetric A B m1 m2 n i j :
  shape A = [m1; n] -> shape B = [m2; n] -> (i < m1)%nat -> (j < m2)%nat ->
  exists D D',
    compute_dist A B "euclidean"%string = Ok D /\
    compute_dist B A "euclidean"%string = Ok D' /\
    item D [i; j] = item D' [j; i].
Proof.
  intros HA HB Hi Hj.
  destruct (compute_dist_euclidean_2d A B m1 m2 n HA HB) as (D & HD & _ & HiD).
  destruct (compute_dist_euclidean_2d B A m2 m1 n HB HA) as (D' & HD' & _ & HiD').
  exists D, D'. split; [exact HD |]. split; [exact HD' |].
  rewrite HiD, HiD' by assumption. apply euclidean_distance_sym.
Qed.

Lemma compute_dist_euclidean_symmetric_witness :
  exists D D',
    compute_dist (array2 2 [[0; 0]; [1; 0]]) (array2 2 [[0; 1]])
      "euclidean"%string = Ok D /\
    compute_dist (array2 2 [[0; 1]]) (array2 2 [[0; 0]; [1; 0]])
      "euclidean"%string = Ok D' /\
    item D [1%nat; 0%nat] = item D' [0%nat; 1%nat].
Proof.
  apply (compute_dist_euclidean_symmetric
           (array2 2 [[0; 0]; [1; 0]]) (array2 2 [[0; 1]]) 2 1 2 1 0).
  - reflexivity.
  - reflexivity.
  - lia.
  - lia.
Defined.

(* ================================================================= *)
(** ** The cosine mode *)

Lemma norm2_nonneg v : 0 <= norm2 v.
Proof. apply vector_norm_nonneg. Qed.

Lemma norm2_sqr v : norm2 v * norm2 v = Rsum (map (fun x => Rabs x * Rabs x) v).
Proof.
  unfold norm2, vector_norm. apply sqrt_sqrt. apply Rsum_abs_sq_nonneg.
Qed.

Lemma norm2_cons x v :
  norm2 (x :: v) = sqrt (Rsqr (Rabs x) + Rsqr (norm2 v)).
Proof.
  unfold Rsqr. rewrite norm2_sqr. reflexivity.
Qed.

Lemma dot_cons x u y v : dot (x :: u) (y :: v) = x * y + dot u v.
Proof. reflexivity. Qed.

(** The inequality of Cauchy and Schwarz. *)
Lemma dot_le_norms u v : Rabs (dot u v) <= norm2 u * norm2 v.
Proof.
  revert v. induction u as [| x u IH]; intros v.
  - unfold dot. cbn [combine map Rsum fold_right]. rewrite Rabs_R0.
    apply Rmult_le_pos; apply norm2_nonneg.
  - destruct v as [| y v].
    + unfold dot. cbn [combine map Rsum fold_right]. rewrite Rabs_R0.
      apply Rmult_le_pos; apply norm2_nonneg.
    + rewrite dot_cons, !norm2_cons.
      pose proof (Rabs_triang (x * y) (dot u v)) as Ht.
      rewrite Rabs_mult in Ht. specialize (IH v).
      pose proof (sqrt_cauchy (Rabs x) (norm2 u) (Rabs y) (norm2 v)). lra.
Qed.

Lemma dot_self u : dot u u = norm2 u * norm2 u.
Proof.
  rewrite norm2_sqr. unfold dot.
  induction u as [| x u IH]; simpl; [reflexivity |].
  rewrite IH. f_equal. unfold Rabs. destruct (Rcase_abs x); lra.
Qed.

Lemma Rsum_scale_r {A : Type} (f : A -> R) c (l : list A) :
  Rsum (map (fun k => f k * c) l) = Rsum (map f l) * c.
Proof.
  induction l as [| k l IH]; simpl; [lra | rewrite IH; lra].
Qed.

Lemma dot_rows A B i j n :
  nth 1 (shape A) 0%nat = n -> nth 1 (shape B) 0%nat = n ->
  dot (row A i) (row B j)
  = Rsum (map (fun l => item A [i; l] * item B [j; l]) (seq 0 n)).
Proof.
  intros HA HB. unfold dot, row. rewrite HA, HB.
  rewrite combine_map_same, map_map. reflexivity.
Qed.

(** Row-wise normalization of a matrix. *)
Lemma normalize_rows A m n :
  shape A = [m; n] ->
  exists A',
    normalize A ord_2 1 = Ok A' /\ shape A' = [m; n] /\
    forall i k, (i < m)%nat -> (k < n)%nat ->
      item A' [i; k] = item A [i; k] / (norm2 (row A i) + float32_eps).
Proof.
  intros HA.
  destruct (normalize_items A ord_2 1 1) as (A' & HA' & HsA' & HiA').
  { unfold ndim. rewrite HA. reflexivity. }
  { discriminate. }
  exists A'. split; [exact HA' |]. split; [congruence |].
  intros i k Hi Hk. rewrite HiA'.
  - reflexivity.
  - rewrite HA. repeat constructor; assumption.
Qed.

(** What the cosine mode computes on matrices with one feature dimension. *)
Lemma compute_dist_cosine_2d A B m1 m2 n :
  shape A = [m1; n] -> shape B = [m2; n] ->
  exists D,
    compute_dist A B "cosine"%string = Ok D /\ shape D = [m1; m2] /\
    forall i j, (i < m1)%nat -> (j < m2)%nat ->
      item D [i; j] =
      dot (row A i) (row B j)
      / ((norm2 (row A i) + float32_eps) * (norm2 (row B j) + float32_eps)).
Proof.
  intros HA HB. unfold compute_dist. rewrite type_cosine_ok. cbn [negb].
  change (String.eqb "cosine"%string "cosine"%string) with true. cbv iota.
  destruct (normalize_rows A m1 n HA) as (A' & -> & HsA' & HiA').
  destruct (normalize_rows B m2 n HB) as (B' & -> & HsB' & HiB').
  cbn [bind].
  rewrite (np_matmul_2d A' (np_T B') m1 n n m2 HsA')
    by (unfold np_T; cbn [shape]; rewrite HsB'; reflexivity).
  rewrite Nat.eqb_refl.
  eexists. split; [reflexivity |]. split; [reflexivity |].
  intros i j Hi Hj. cbn [item rev app nth]. unfold np_T. cbn [item rev app].
  rewrite (dot_rows A B i j n) by (rewrite ?HA, ?HB; reflexivity).
  pose proof (norm2_nonneg (row A i)). pose proof (norm2_nonneg (row B j)).
  pose proof float32_eps_pos.
  unfold Rdiv. rewrite <- Rsum_scale_r.
  apply Rsum_map_ext. intros l Hl. apply in_seq in Hl.
  rewrite HiA', HiB' by lia. field. lra.
Qed.

(** X8: on matrices with one feature dimension the cosine mode returns a
    matrix of shape [m1, m2] whose entry [i, j] is the dot product of row
    [i] of [A] and row [j] of [B] divided by
    [(|A[i]| + eps) * (|B[j]| + eps)], and every entry lies strictly
    between -1 and 1. *)
Theorem compute_dist_cosine_correct A B m1 m2 n :
  shape A = [m1; n] -> shape B = [m2; n] ->
  exists D,
    compute_dist A B "cosine"%string = Ok D /\ shape D = [m1; m2] /\
    forall i j, (i < m1)%nat -> (j < m2)%nat ->
      item D [i; j] =
      dot (row A i) (row B j)
      / ((norm2 (row A i) + float32_eps) * (norm2 (row B j) + float32_eps)) /\
      -1 < item D [i; j] < 1.
Proof.
  intros HA HB.
  destruct (compute_dist_cosine_2d A B m1 m2 n HA HB) as (D & HD & Hs & Hi).
  exists D. split; [exact HD |]. split; [exact Hs |].
  intros i j Hlt1 Hlt2. rewrite (Hi i j Hlt1 Hlt2). split; [reflexivity |].
  pose proof (norm2_nonneg (row A i)) as Ha.
  pose proof (norm2_nonneg (row B j)) as Hb.
  pose proof float32_eps_pos as He.
  pose proof (dot_le_norms (row A i) (row B j)) as Hcs.
  set (d := dot (row A i) (row B j)) in *.
  set (na := norm2 (row A i)) in *. set (nb := norm2 (row B j)) in *.
  assert (HP : 0 < (na + float32_eps) * (nb + float32_eps)) by nra.
  assert (Hlt : Rabs d < (na + float32_eps) * (nb + float32_eps)) by nra.
  apply Rabs_def2 in Hlt as [Hup Hlo].
  assert (Hinv : 0 < / ((na + float32_eps) * (nb + float32_eps)))
    by now apply Rinv_0_lt_compat.
  split.
  - apply (Rmult_lt_reg_r ((na + float32_eps) * (nb + float32_eps)) _ _ HP).
    unfold Rdiv. rewrite Rmult_assoc, Rinv_l by lra. lra.
  - apply (Rmult_lt_reg_r ((na + float32_eps) * (nb + float32_eps)) _ _ HP).
    unfold Rdiv. rewrite Rmult_assoc, Rinv_l by lra. lra.
Qed.

Lemma compute_dist_cosine_correct_witness :
  exists D,
    compute_dist (array2 2 [[3; 4]]) (array2 2 [[1; 0]; [0; 1]])
      "cosine"%string = Ok D /\
    shape D = [1%nat; 2%nat] /\
    forall i j, (i < 1)%nat -> (j < 2)%nat ->
      item D [i; j] =
      dot (row (array2 2 [[3; 4]]) i) (row (array2 2 [[1; 0]; [0; 1]]) j)
      / ((norm2 (row (array2 2 [[3; 4]]) i) + float32_eps)
         * (norm2 (row (array2 2 [[1; 0]; [0; 1]]) j) + float32_eps)) /\
      -1 < item D [i; j] < 1.
Proof.
  apply (compute_dist_cosine_correct
           (array2 2 [[3; 4]]) (array2 2 [[1; 0]; [0; 1]]) 1 2 2);
    reflexivity.
Defined.

(** X9: the cosine similarity of a row with itself,
    the diagonal of [compute_dist(A, A, 'cosine')], is
    [(N / (N + eps))^2] with [N] the Euclidean norm of the row: it is
    at least 0 and stays below 1. *)
Theorem compute_dist_cosine_diagonal A m n i :
  shape A = [m; n] -> (i < m)%nat ->
  exists D,
    compute_dist A A "cosine"%string = Ok D /\
    item D [i; i] =
    Rsqr (norm2 (row A i) / (norm2 (row A i) + float32_eps)) /\
    0 <= item D [i; i] < 1.
Proof.
  intros HA Hi.
  destruct (compute_dist_cosine_2d A A m m n HA HA) as (D & HD & _ & HiD).
  exists D. split; [exact HD |].
  pose proof (norm2_nonneg (row A i)) as Hn.
  pose proof float32_eps_pos as He.
  assert (E : item D [i; i]
              = Rsqr (norm2 (row A i) / (norm2 (row A i) + float32_eps))).
  { rewrite (HiD i i Hi Hi), dot_self. unfold Rsqr. field. lra. }
  split; [exact E |]. rewrite E.
  set (N := norm2 (row A i)) in *.
  assert (Hinv : 0 < / (N + float32_eps)) by (apply Rinv_0_lt_compat; lra).
  assert (Hq0 : 0 <= N / (N + float32_eps)) by (unfold Rdiv; nra).
  assert (Hq1 : N / (N + float32_eps) < 1).
  { apply (Rmult_lt_reg_r (N + float32_eps)); [lra |].
    unfold Rdiv. rewrite Rmult_assoc, Rinv_l by lra. lra. }
  unfold Rsqr. nra.
Qed.

Lemma compute_dist_cosine_diagonal_witness :
  exists D,
    compute_dist (array2 2 [[3; 4]]) (array2 2 [[3; 4]]) "cosine"%string
    = Ok D /\
    item D [0%nat; 0%nat] =
    Rsqr (norm2 (row (array2 2 [[3; 4]]) 0)
          / (norm2 (row (array2 2 [[3; 4]]) 0) + float32_eps)) /\
    0 <= item D [0%nat; 0%nat] < 1.
Proof.
  apply (compute_dist_cosine_diagonal (array2 2 [[3; 4]]) 1 2 0).
  - reflexivity.
  - lia.
Defined.

(* ================================================================= *)
(** ** The triangle inequality of the euclidean mode *)

Lemma euclidean_distance_norm2 u v :
  euclidean_distance u v = norm2 (vec_sub u v).
Proof.
  unfold euclidean_distance, norm2, vector_norm, vec_sub. f_equal.
  rewrite map_map. apply Rsum_map_ext. intros p _.
  unfold Rabs. destruct (Rcase_abs (fst p - snd p)); lra.
Qed.

Lemma sum_sq_sub_split u v w :
  length u = length v -> length v = length w ->
  norm2 (vec_sub u w) * norm2 (vec_sub u w)
  = norm2 (vec_sub u v) * norm2 (vec_sub u v)
    + 2 * dot (vec_sub u v) (vec_sub v w)
    + norm2 (vec_sub v w) * norm2 (vec_sub v w).
Proof.
  rewrite !norm2_sqr. unfold dot, vec_sub.
  revert v w. induction u as [| x u IH]; intros [| y v] [| z w] Huv Hvw;
    try discriminate; cbn [combine map Rsum fold_right fst snd].
  - lra.
  - injection Huv as Huv. injection Hvw as Hvw.
    specialize (IH v w Huv Hvw).
    cbn [combine map Rsum fold_right fst snd] in IH.
    assert (Hsq : forall t, Rabs t * Rabs t = t * t)
      by (intros t; unfold Rabs; destruct (Rcase_abs t); lra).
    rewrite !Hsq. unfold Rsum in IH. lra.
Qed.

Lemma euclidean_distance_triangle u v w :
  length u = length v -> length v = length w ->
  euclidean_distance u w <= euclidean_distance u v + euclidean_distance v w.
Proof.
  intros Huv Hvw. rewrite !euclidean_distance_norm2.
  pose proof (sum_sq_sub_split u v w Huv Hvw) as Hsplit.
  pose proof (dot_le_norms (vec_sub u v) (vec_sub v w)) as Hcs.
  pose proof (Rle_abs (dot (vec_sub u v) (vec_sub v w))) as Habs.
  pose proof (norm2_nonneg (vec_sub u w)) as H0.
  pose proof (norm2_nonneg (vec_sub u v)) as H1.
  pose proof (norm2_nonneg (vec_sub v w)) as H2.
  set (a := norm2 (vec_sub u w)) in *.
  set (b := norm2 (vec_sub u v)) in *.
  set (c := norm2 (vec_sub v w)) in *.
  destruct (Rle_dec a (b + c)) as [Hle | Hgt]; [exact Hle |].
  exfalso. nra.
Qed.

Lemma length_row a i : length (row a i) = nth 1 (shape a) 0%nat.
Proof. unfold row. now rewrite length_map, length_seq. Qed.

(** X10: the euclidean mode obeys the triangle inequality: for three
    matrices with one feature dimension, the distance from row [i] of [A]
    to row [k] of [C] is at most the distance from row [i] of [A] to row
    [j] of [B] plus the distance from row [j] of [B] to row [k] of [C]. *)
Theorem compute_dist_euclidean_triangle A B C m1 m2 m3 n i j k :
  shape A = [m1; n] -> shape B = [m2; n] -> shape C = [m3; n] ->
  (i < m1)%nat -> (j < m2)%nat -> (k < m3)%nat ->
  exists DAC DAB DBC,
    compute_dist A C "euclidean"%string = Ok DAC /\
    compute_dist A B "euclidean"%string = Ok DAB /\
    compute_dist B C "euclidean"%string = Ok DBC /\
    item DAC [i; k] <= item DAB [i; j] + item DBC [j; k].
Proof.
  intros HA HB HC Hi Hj Hk.
  destruct (compute_dist_euclidean_2d A C m1 m3 n HA HC) as (DAC & H1 & _ & I1).
  destruct (compute_dist_euclidean_2d A B m1 m2 n HA HB) as (DAB & H2 & _ & I2).
  destruct (compute_dist_euclidean_2d B C m2 m3 n HB HC) as (DBC & H3 & _ & I3).
  exists DAC, DAB, DBC. repeat (split; [assumption |]).
  rewrite I1, I2, I3 by assumption.
  apply euclidean_distance_triangle;
    rewrite !length_row, ?HA, ?HB, ?HC; reflexivity.
Qed.

Lemma compute_dist_euclidean_triangle_witness :
  exists DAC DAB DBC,
    compute_dist (array2 2 [[0; 0]]) (array2 2 [[3; 4]]) "euclidean"%string
    = Ok DAC /\
    compute_dist (array2 2 [[0; 0]]) (array2 2 [[3; 0]]) "euclidean"%string
    = Ok DAB /\
    compute_dist (array2 2 [[3; 0]]) (array2 2 [[3; 4]]) "euclidean"%string
    = Ok DBC /\
    item DAC [0%nat; 0%nat] <= item DAB [0%nat; 0%nat] + item DBC [0%nat; 0%nat].
Proof.
  apply (compute_dist_euclidean_triangle
           (array2 2 [[0; 0]]) (array2 2 [[3; 0]]) (array2 2 [[3; 4]])
           1 1 1 2 0 0 0); reflexivity || lia.
Defined.

(* ================================================================= *)
(** ** Further properties of the local distances *)

Lemma local_cost_range x y I J i j : 0 <= local_cost x y I J i j < 1.
Proof.
  unfold local_cost.
  pose proof (euclidean_distance_nonneg (row3 x I i) (row3 y J j)) as He.
  set (e := euclidean_distance (row3 x I i) (row3 y J j)) in *.
  pose proof (exp_ge_1 e He) as H1.
  assert (Hinv : 0 < / (exp e + 1)) by (apply Rinv_0_lt_compat; lra).
  split.
  - unfold squash, Rdiv. apply Rmult_le_pos; lra.
  - rewrite squash_alt. unfold Rdiv. lra.
Qed.

Lemma parallel_local_dist_min_path_witness :
  exists r,
    parallel_local_dist three_objects three_objects = Ok r /\
    shape r = [3%nat; 3%nat] /\
    forall I J, (I < 3)%nat -> (J < 3)%nat ->
      min_path_cost (local_cost three_objects three_objects I J)
                    (2 - 1) (2 - 1) (item r [I; J]).
Proof.
  apply (parallel_local_dist_min_path three_objects three_objects 3 2 3 2 2).
  - reflexivity.
  - reflexivity.
  - lia.
  - lia.
Defined.

(** X12: every entry of [parallel_local_dist] is at least 0 and below
    [m + n - 1], the number of cells of a path: the local costs lie in
    [0, 1). *)
Theorem parallel_local_dist_range x y M m N n d :
  shape x = [M; m; d] -> shape y = [N; n; d] ->
  (1 <= m)%nat -> (1 <= n)%nat ->
  exists r,
    parallel_local_dist x y = Ok r /\ shape r = [M; N] /\
    forall I J, (I < M)%nat -> (J < N)%nat ->
      0 <= item r [I; J] < INR (m + n - 1).
Proof.
  intros Hx Hy Hm Hn.
  destruct (parallel_local_dist_entries x y M m N n d Hx Hy Hm Hn)
    as (r & Hr & Hs & Hi).
  exists r. split; [exact Hr |]. split; [exact Hs |].
  intros I J HI HJ. rewrite (Hi I J HI HJ).
  replace (m + n - 1)%nat with ((m - 1) + (n - 1) + 1)%nat by lia. split.
  - replace 0 with (INR ((m - 1) + (n - 1) + 1) * 0) by lra.
    rewrite <- acc_constant. apply acc_monotone.
    intros i j _ _. apply local_cost_range.
  - replace (INR ((m - 1) + (n - 1) + 1))
      with (INR ((m - 1) + (n - 1) + 1) * 1) by lra.
    apply acc_strict_upper. intros i j _ _. apply local_cost_range.
Qed.

Lemma parallel_local_dist_range_witness :
  exists r,
    parallel_local_dist three_objects two_single_descriptors = Ok r /\
    shape r = [3%nat; 2%nat] /\
    forall I J, (I < 3)%nat -> (J < 2)%nat ->
      0 <= item r [I; J] < INR (2 + 1 - 1).
Proof.
  apply (parallel_local_dist_range
           three_objects two_single_descriptors 3 2 2 1 2).
  - reflexivity.
  - reflexivity.
  - lia.
  - lia.
Defined.

Lemma first_column_cost_range x y m I J :
  (1 <= m)%nat -> 0 <= first_column_cost x y m I J < INR m.
Proof.
  intros Hm. unfold first_column_cost.
  assert (H : forall l : list nat, l <> [] ->
            0 <= Rsum (map (fun i => local_cost x y I J i 0) l)
            < INR (length l)).
  { induction l as [| i l IH]; intros Hne; [congruence |].
    pose proof (local_cost_range x y I J i 0) as Hc.
    cbn [map Rsum fold_right length]. rewrite S_INR.
    destruct l as [| i' l].
    - cbn [map fold_right length INR]. lra.
    - assert (Hl : i' :: l <> []) by discriminate.
      specialize (IH Hl). unfold Rsum in IH. lra. }
  specialize (H (seq 0 m)). rewrite length_seq in H. apply H.
  destruct m; [lia | discriminate].
Qed.

(** X13: entry [I, J] of [serial_local_dist] is the sum over the
    descriptors [i] of [x[I]] of the local cost against the first
    descriptor of [y[J]]; it is at least 0 and below [m]. *)
Theorem serial_local_dist_first_column x y M m N n d :
  shape x = [M; m; d] -> shape y = [N; n; d] ->
  (1 <= m)%nat -> (1 <= n)%nat ->
  exists r,
    serial_local_dist x y = Ok r /\ shape r = [M; N] /\
    forall I J, (I < M)%nat -> (J < N)%nat ->
      item r [I; J]
      = Rsum (map (fun i => local_cost x y I J i 0) (seq 0 m)) /\
      0 <= item r [I; J] < INR m.
Proof.
  intros Hx Hy Hm Hn.
  destruct (serial_local_dist_entries x y M m N n d Hx Hy Hm Hn)
    as (r & Hr & Hs & Hi).
  exists r. split; [exact Hr |]. split; [exact Hs |].
  intros I J HI HJ. rewrite (Hi I J HI HJ).
  split; [reflexivity | now apply first_column_cost_range].
Qed.

Lemma serial_local_dist_first_column_witness :
  exists r,
    serial_local_dist three_objects two_single_descriptors = Ok r /\
    shape r = [3%nat; 2%nat] /\
    forall I J, (I < 3)%nat -> (J < 2)%nat ->
      item r [I; J]
      = Rsum (map (fun i =>
                     local_cost three_objects two_single_descriptors I J i 0)
                  (seq 0 2)) /\
      0 <= item r [I; J] < INR 2.
Proof.
  apply (serial_local_dist_first_column
           three_objects two_single_descriptors 3 2 2 1 2).
  - reflexivity.
  - reflexivity.
  - lia.
  - lia.
Defined.

(** Along the first column the accumulator is a running sum. *)
Lemma acc_col0_sum c k :
  acc c k 0 = Rsum (map (fun i => c i 0%nat) (seq 0 (S k))).
Proof.
  induction k as [| k IH].
  - rewrite acc_0_0. simpl. lra.
  - rewrite acc_S_0, IH, (seq_S (S k)), map_app, Rsum_app. simpl. lra.
Qed.

(** X14: when every object of [y] has a single descriptor ([n = 1]) the
    serial and the batched form return elementwise equal matrices. *)
Theorem serial_parallel_agree_single_descriptor x y M m N d :
  shape x = [M; m; d] -> shape y = [N; 1%nat; d] -> (1 <= m)%nat ->
  exists s p,
    serial_local_dist x y = Ok s /\ parallel_local_dist x y = Ok p /\
    arr_eq s p.
Proof.
  intros Hx Hy Hm.
  destruct (serial_local_dist_entries x y M m N 1 d Hx Hy Hm (le_n 1))
    as (s & Hs & Hss & His).
  destruct (parallel_local_dist_entries x y M m N 1 d Hx Hy Hm (le_n 1))
    as (p & Hp & Hsp & Hip).
  exists s, p. split; [exact Hs |]. split; [exact Hp |]. split.
  - congruence.
  - intros idx Hidx. rewrite Hss in Hidx.
    inversion Hidx as [| I d1 idx1 s1 HI Hrest]; subst.
    inversion Hrest as [| J d2 idx2 s2 HJ Hnil]; subst.
    inversion Hnil; subst.
    rewrite (His I J HI HJ), (Hip I J HI HJ).
    change (1 - 1)%nat with 0%nat. rewrite acc_col0_sum.
    unfold first_column_cost. replace (S (m - 1)) with m by lia. reflexivity.
Qed.

Lemma serial_parallel_agree_single_descriptor_witness :
  exists s p,
    serial_local_dist three_objects two_single_descriptors = Ok s /\
    parallel_local_dist three_objects two_single_descriptors = Ok p /\
    arr_eq s p.
Proof.
  apply (serial_parallel_agree_single_descriptor
           three_objects two_single_descriptors 3 2 2 2).
  - reflexivity.
  - reflexivity.
  - lia.
Defined.

(* ================================================================= *)
(** ** Errors of the local distances *)

Lemma np_reshape_size_mismatch a s :
  prod_shape s <> prod_shape (shape a) -> np_reshape a s = Raise ValueError.
Proof.
  intros H. unfold np_reshape. apply Nat.eqb_neq in H. now rewrite H.
Qed.

(** X15: [parallel_local_dist] raises [ValueError] when one input is not
    three-dimensional, and when the feature dimensions differ while [x]
    holds at least one descriptor: both inputs are reshaped with the
    feature dimension of [y]. *)
Theorem parallel_local_dist_shape_errors x y :
  (ndim x <> 3%nat \/ ndim y <> 3%nat ->
   parallel_local_dist x y = Raise ValueError) /\
  (forall M m dx N n dy,
     shape x = [M; m; dx] -> shape y = [N; n; dy] ->
     dx <> dy -> (1 <= M * m)%nat ->
     parallel_local_dist x y = Raise ValueError).
Proof.
  split.
  - intros H. unfold parallel_local_dist, ndim in *.
    destruct (shape x) as [| M [| m [| dx [| ? ?]]]]; try reflexivity.
    destruct (shape y) as [| N [| n [| dy [| ? ?]]]]; try reflexivity.
    simpl in H. destruct H as [H | H]; congruence.
  - intros M m dx N n dy Hx Hy Hne Hpos. unfold parallel_local_dist.
    rewrite Hx, Hy.
    rewrite np_reshape_size_mismatch; [reflexivity |].
    rewrite Hx. cbn [prod_shape fold_right]. nia.
Qed.

Lemma parallel_local_dist_shape_errors_witness :
  parallel_local_dist (array2 1 [[0]]) (array3 1 1 [[[0]]]) = Raise ValueError /\
  parallel_local_dist (array3 1 2 [[[0; 0]]]) (array3 1 1 [[[0]]])
  = Raise ValueError.
Proof.
  split.
  - apply (proj1 (parallel_local_dist_shape_errors
                    (array2 1 [[0]]) (array3 1 1 [[[0]]]))).
    left. unfold ndim. simpl. lia.
  - apply (proj2 (parallel_local_dist_shape_errors
                    (array3 1 2 [[[0; 0]]]) (array3 1 1 [[[0]]]))
             1%nat 1%nat 2%nat 1%nat 1%nat 1%nat eq_refl eq_refl); lia.
Defined.

(** X16: on matrices [meta_local_dist] raises [ValueError] when the
    feature dimensions differ, and [IndexError] when the feature
    dimensions agree and one of the two sequences is empty. *)
Theorem meta_local_dist_errors x y m dx n dy :
  shape x = [m; dx] -> shape y = [n; dy] ->
  (dx <> dy -> meta_local_dist x y = Raise ValueError) /\
  (dx = dy -> (m = 0 \/ n = 0)%nat -> meta_local_dist x y = Raise IndexError).
Proof.
  intros Hx Hy. split.
  - intros Hne. unfold meta_local_dist.
    rewrite (compute_dist_inner_mismatch x y m dx n dy "euclidean"%string
               Hx Hy Hne (or_introl eq_refl)).
    reflexivity.
  - intros <- Hempty. unfold meta_local_dist.
    destruct (compute_dist_euclidean_2d x y m n dx Hx Hy) as (D & -> & HsD & _).
    cbn [bind].
    assert (Hs : shape (newaxis_first (squash_arr D)) = [1%nat; m; n])
      by (unfold newaxis_first; cbn [shape]; now rewrite shape_squash_arr, HsD).
    destruct m as [| m].
    + rewrite (shortest_dist_empty _ 1 0 [n] Hs) by now right. reflexivity.
    + destruct Hempty as [Hm | ->]; [discriminate |].
      destruct (shortest_dist_ok _ 1 (S m) [0%nat] Hs) as (r & -> & Hsr & _);
        [lia | lia |].
      cbn [bind]. unfold getitem. rewrite Hsr, (py_index_empty 0). reflexivity.
Qed.

Lemma meta_local_dist_errors_witness :
  meta_local_dist (array2 2 [[0; 0]]) (array2 1 [[0]]) = Raise ValueError /\
  meta_local_dist (array2 1 [[0]]) (zeros [0%nat; 1%nat]) = Raise IndexError.
Proof.
  split.
  - apply (proj1 (meta_local_dist_errors
                    (array2 2 [[0; 0]]) (array2 1 [[0]]) 1 2 1 1
                    eq_refl eq_refl)).
    lia.
  - apply (proj2 (meta_local_dist_errors
                    (array2 1 [[0]]) (zeros [0%nat; 1%nat]) 1 1 0 1
                    eq_refl eq_refl)).
    + reflexivity.
    + right. reflexivity.
Defined.

(** X17: with matching feature dimensions [parallel_local_dist] raises
    [IndexError] when the objects of [x] or of [y] have no descriptor
    ([m = 0] or [n = 0]): the grid of the alignment is empty. *)
Theorem parallel_local_dist_empty_sequences x y M m N n d :
  shape x = [M; m; d] -> shape y = [N; n; d] -> (m = 0 \/ n = 0)%nat ->
  parallel_local_dist x y = Raise IndexError.
Proof.
  intros Hx Hy Hempty. unfold parallel_local_dist. rewrite Hx, Hy.
  unfold np_reshape at 1 2. rewrite Hx, Hy.
  assert (E1 : (prod_shape [(M * m)%nat; d] =? prod_shape [M; m; d])%nat = true)
    by (apply Nat.eqb_eq; cbn [prod_shape fold_right]; lia).
  assert (E2 : (prod_shape [(N * n)%nat; d] =? prod_shape [N; n; d])%nat = true)
    by (apply Nat.eqb_eq; cbn [prod_shape fold_right]; lia).
  rewrite E1, E2. cbn [bind].
  match goal with
  | |- context [compute_dist ?a ?b _] =>
      destruct (compute_dist_euclidean_2d a b (M * m) (N * n) d eq_refl eq_refl)
        as (D & -> & HsD & _)
  end.
  cbn [bind]. unfold np_reshape. rewrite shape_squash_arr, HsD.
  assert (E : (prod_shape [M; m; N; n]
               =? prod_shape [(M * m)%nat; (N * n)%nat])%nat = true)
    by (apply Nat.eqb_eq; cbn [prod_shape fold_right]; lia).
  rewrite E. cbn [bind].
  unfold np_transpose, ndim. cbn [shape length].
  change (is_permutation [1; 3; 0; 2]%nat 4) with true. cbv iota.
  cbn [bind map nth seq find_pos Nat.eqb].
  match goal with
  | |- shortest_dist ?dm = _ =>
      apply (shortest_dist_empty dm m n [M; N] eq_refl Hempty)
  end.
Qed.

Lemma parallel_local_dist_empty_sequences_witness :
  parallel_local_dist (zeros [2%nat; 0%nat; 3%nat]) (zeros [1%nat; 4%nat; 3%nat])
  = Raise IndexError.
Proof.
  apply (parallel_local_dist_empty_sequences
           (zeros [2%nat; 0%nat; 3%nat]) (zeros [1%nat; 4%nat; 3%nat])
           2 0 1 4 3).
  - reflexivity.
  - reflexivity.
  - left. reflexivity.
Defined.

(* ================================================================= *)
(** ** Further properties of [low_memory_matrix_op] *)

(** X18: with the euclidean mode of [compute_dist] as the function,
    splitting [x] or [y] along axis 0 into any number of parts from 1 on
    (also more parts than rows) returns a matrix elementwise equal to
    [compute_dist(x, y)]. *)
Theorem low_memory_matrix_op_euclidean x y m1 m2 n s k verbose :
  shape x = [m1; n] -> shape y = [m2; n] -> (1 <= k)%Z ->
  s = "x"%string \/ s = "y"%string ->
  exists z r,
    compute_dist x y "euclidean"%string = Ok z /\
    low_memory_matrix_op x y euclidean_dist s 0 k verbose = Ok r /\
    arr_eq r z.
Proof.
  intros Hx Hy Hk Hs.
  destruct (compute_dist_euclidean_2d x y m1 m2 n Hx Hy) as (z & Hz & Hsz & _).
  exists z.
  assert (Hex : exists r,
             low_memory_matrix_op x y euclidean_dist s 0 k verbose = Ok r /\
             arr_eq r z).
  { destruct Hs as [-> | ->].
    - apply (low_memory_matrix_op_slices x y euclidean_dist "x"%string
               0 k verbose 0 z).
      + change (to_split "x"%string x y) with x. unfold ndim. now rewrite Hx.
      + exact Hk.
      + change (axis_to_concat "x"%string) with 0%nat. unfold ndim.
        rewrite Hsz. simpl. lia.
      + change (axis_to_concat "x"%string) with 0%nat.
        change (to_split "x"%string x y) with x. now rewrite Hsz, Hx.
      + apply (euclidean_dist_by_rows x y m1 m2 n z Hx Hy Hz).
    - apply (low_memory_matrix_op_slices x y euclidean_dist "y"%string
               0 k verbose 0 z).
      + change (to_split "y"%string x y) with y. unfold ndim. now rewrite Hy.
      + exact Hk.
      + change (axis_to_concat "y"%string) with 1%nat. unfold ndim.
        rewrite Hsz. simpl. lia.
      + change (axis_to_concat "y"%string) with 1%nat.
        change (to_split "y"%string x y) with y. now rewrite Hsz, Hy.
      + apply (euclidean_dist_by_cols x y m1 m2 n z Hx Hy Hz). }
  destruct Hex as (r & Hr & Heq).
  exists r. split; [exact Hz |]. split; [exact Hr | exact Heq].
Qed.

Lemma low_memory_matrix_op_euclidean_witness :
  exists z r,
    compute_dist two_rows_one_feature one_row_one_feature "euclidean"%string
    = Ok z /\
    low_memory_matrix_op two_rows_one_feature one_row_one_feature
      euclidean_dist "y"%string 0 3 true = Ok r /\
    arr_eq r z.
Proof.
  apply (low_memory_matrix_op_euclidean
           two_rows_one_feature one_row_one_feature 2 1 1 "y"%string 3 true).
  - reflexivity.
  - reflexivity.
  - lia.
  - right. reflexivity.
Defined.

(** X19: when the axis does not exist in the operand that is split,
    [low_memory_matrix_op] raises [IndexError], whatever the function and
    the split count: the length of the axis is looked up before the split
    count is examined. *)
Theorem low_memory_matrix_op_invalid_axis x y func s axis k verbose :
  py_index (ndim (to_split s x y)) axis = None ->
  low_memory_matrix_op x y func s axis k verbose = Raise IndexError.
Proof.
  intros Hax. rewrite low_memory_matrix_op_unfold. unfold array_split.
  now rewrite Hax.
Qed.

Lemma low_memory_matrix_op_invalid_axis_witness :
  low_memory_matrix_op two_rows_one_feature one_row_one_feature
    euclidean_dist "x"%string 2 0 false = Raise IndexError.
Proof.
  apply (low_memory_matrix_op_invalid_axis
           two_rows_one_feature one_row_one_feature
           euclidean_dist "x"%string 2 0 false).
  reflexivity.
Defined.



(* ================================================================= *)
(** ** Further properties of [normalize] *)



(** X21: the outcomes of [normalize]: it raises [AxisError] when the axis
    does not exist, [ValueError] when the order is the maximum norm and
    the axis has length 0, and otherwise returns an array of the shape of
    its input. *)
Theorem normalize_outcomes a order axis :
  (py_index (ndim a) axis = None ->
   normalize a order axis = Raise AxisError) /\
  (forall ax,
     py_index (ndim a) axis = Some ax ->
     (order = ord_inf -> nth ax (shape a) 0%nat = 0%nat ->
      normalize a order axis = Raise ValueError) /\
     (order <> ord_inf \/ (1 <= nth ax (shape a) 0)%nat ->
      exists r, normalize a order axis = Ok r /\ shape r = shape a)).
Proof.
  split.
  - intros Hax. unfold normalize, linalg_norm. now rewrite Hax.
  - intros ax Hax. split.
    + intros -> H0. unfold normalize, linalg_norm. rewrite Hax, H0. reflexivity.
    + intros Hok.
      destruct (normalize_items a order axis ax Hax) as (r & Hr & Hs & _).
      * intros Hinf. destruct Hok as [Hne | Hpos]; [congruence | exact Hpos].
      * now exists r.
Qed.

Lemma normalize_outcomes_witness :
  normalize (array1 [3; 4]) ord_2 1 = Raise AxisError /\
  normalize (zeros [2%nat; 0%nat]) ord_inf 1 = Raise ValueError /\
  exists r,
    normalize (array1 [3; 4]) ord_inf (-1) = Ok r /\
    shape r = shape (array1 [3; 4]).
Proof.
  split; [| split].
  - apply (proj1 (normalize_outcomes (array1 [3; 4]) ord_2 1)). reflexivity.
  - apply (proj1 (proj2 (normalize_outcomes (zeros [2%nat; 0%nat]) ord_inf 1)
                    1%nat eq_refl)); reflexivity.
  - apply (proj2 (proj2 (normalize_outcomes (array1 [3; 4]) ord_inf (-1))
                    0%nat eq_refl)).
    right. simpl. lia.
Defined.



(* ================================================================= *)
(** ** Grids of a single row or a single column *)

(** X23: on a grid of a single row [shortest_dist] returns the sum of the
    row, and on a grid of a single column the sum of the column, in every
    batch slice: there is one monotonic path. *)
Theorem shortest_dist_single_line dist_mat k extra e :
  (1 <= k)%nat ->
  (shape dist_mat = 1%nat :: k :: extra ->
   exists r,
     shortest_dist dist_mat = Ok r /\
     item r e = Rsum (map (fun j => item dist_mat (0%nat :: j :: e)) (seq 0 k))) /\
  (shape dist_mat = k :: 1%nat :: extra ->
   exists r,
     shortest_dist dist_mat = Ok r /\
     item r e = Rsum (map (fun i => item dist_mat (i :: 0%nat :: e)) (seq 0 k))).
Proof.
  intros Hk. split; intros Hs.
  - destruct (shortest_dist_ok dist_mat 1 k extra Hs (le_n 1) Hk)
      as (r & Hr & _ & Hi).
    exists r. split; [exact Hr |]. rewrite Hi. change (1 - 1)%nat with 0%nat.
    rewrite acc_row0_sum. replace (S (k - 1)) with k by lia. reflexivity.
  - destruct (shortest_dist_ok dist_mat k 1 extra Hs Hk (le_n 1))
      as (r & Hr & _ & Hi).
    exists r. split; [exact Hr |]. rewrite Hi. change (1 - 1)%nat with 0%nat.
    rewrite acc_col0_sum. replace (S (k - 1)) with k by lia. reflexivity.
Qed.

Lemma shortest_dist_single_line_witness :
  (exists r,
     shortest_dist (array2 3 [[1; 2; 3]]) = Ok r /\
     item r []
     = Rsum (map (fun j => item (array2 3 [[1; 2; 3]]) (0%nat :: j :: []))
                 (seq 0 3))) /\
  (exists r,
     shortest_dist (array2 1 [[1]; [2]; [3]]) = Ok r /\
     item r []
     = Rsum (map (fun i => item (array2 1 [[1]; [2]; [3]]) (i :: 0%nat :: []))
                 (seq 0 3))).
Proof.
  split.
  - apply (proj1 (shortest_dist_single_line (array2 3 [[1; 2; 3]]) 3 [] []
                    (le_S _ _ (le_S _ _ (le_n 1))))).
    reflexivity.
  - apply (proj2 (shortest_dist_single_line (array2 1 [[1]; [2]; [3]]) 3 [] []
                    (le_S _ _ (le_S _ _ (le_n 1))))).
    reflexivity.
Defined.

(* ================================================================= *)
(** ** The clamp of the euclidean mode *)






(* ================================================================= *)
(** ** The split count of [low_memory_matrix_op] *)

Lemma split_sizes_length L K : (K <> 0)%nat -> length (split_sizes L K) = K.
Proof.
  intros HK. unfold split_sizes. rewrite length_app, !repeat_length.
  pose proof (Nat.mod_upper_bound L K HK). lia.
Qed.

Lemma split_sizes_sum L K : (K <> 0)%nat -> sum_sizes (split_sizes L K) = L.
Proof.
  intros HK. unfold split_sizes. rewrite sum_sizes_app, !sum_sizes_repeat.
  pose proof (Nat.mod_upper_bound L K HK).
  pose proof (Nat.div_mod_eq L K). nia.
Qed.

(** With more parts than elements the first parts hold one element each
    and the others are empty. *)
Lemma split_sizes_excess L K :
  (L < K)%nat ->
  split_sizes L K = repeat 1%nat L ++ repeat 0%nat (K - L).
Proof.
  intros H. unfold split_sizes.
  now rewrite (Nat.div_small L K H), (Nat.mod_small L K H).
Qed.

(** The parts [np.array_split] returns, with their lengths. *)
Lemma array_split_sizes ary sections axis ax :
  py_index (ndim ary) axis = Some ax -> (1 <= sections)%Z ->
  array_split ary sections axis
  = Ok (slices_from ary ax 0
          (split_sizes (nth ax (shape ary) 0%nat) (Z.to_nat sections))).
Proof.
  intros Hax Hk. unfold array_split. rewrite Hax.
  assert (E : (sections <=? 0)%Z = false) by (apply Z.leb_gt; lia).
  rewrite E. cbv zeta. f_equal. cbn [cumsum]. change (0 + 0)%nat with 0%nat.
  replace (seq 0 (Z.to_nat sections))
    with (seq 0 (length (split_sizes (nth ax (shape ary) 0%nat)
                                     (Z.to_nat sections))))
    by (rewrite split_sizes_length by lia; reflexivity).
  apply split_points_slices.
Qed.

(** C10, as the code has it: along a valid axis a split count of 0 or less
    makes [low_memory_matrix_op] raise [ValueError].  Every split count
    [k] from 1 on is accepted: the operand is cut into [k] consecutive
    parts whose lengths add up to the length [L] of the axis, the function
    is called on every part, and the results are joined; nothing else
    decides the outcome.  A split count above [L] gives [L] parts of one
    element followed by [k - L] empty parts, and with a function that
    works slice by slice [low_memory_matrix_op] then returns, without
    raising, a matrix elementwise equal to the whole result [z]. *)
Theorem low_memory_matrix_op_split_count x y func s axis k verbose ax :
  py_index (ndim (to_split s x y)) axis = Some ax ->
  ((k <= 0)%Z ->
   low_memory_matrix_op x y func s axis k verbose = Raise ValueError) /\
  ((1 <= k)%Z ->
   length (split_sizes (split_length s x y ax) (Z.to_nat k)) = Z.to_nat k /\
   sum_sizes (split_sizes (split_length s x y ax) (Z.to_nat k))
   = split_length s x y ax /\
   low_memory_matrix_op x y func s axis k verbose =
   (mat <- mapM (call_on_part func s x y)
             (slices_from (to_split s x y) ax 0
                (split_sizes (split_length s x y ax) (Z.to_nat k))) ;;
    np_concatenate mat (axis_to_concat s))) /\
  ((Z.of_nat (split_length s x y ax) < k)%Z ->
   split_sizes (split_length s x y ax) (Z.to_nat k)
   = repeat 1%nat (split_length s x y ax)
     ++ repeat 0%nat (Z.to_nat k - split_length s x y ax) /\
   forall z,
     (axis_to_concat s < ndim z)%nat ->
     nth (axis_to_concat s) (shape z) 0%nat = split_length s x y ax ->
     slice_compatible func s x y ax z ->
     exists r,
       low_memory_matrix_op x y func s axis k verbose = Ok r /\ arr_eq r z).
Proof.
  intros Hax. split; [| split].
  - intros Hk. rewrite low_memory_matrix_op_unfold. unfold array_split.
    rewrite Hax.
    assert (E : (k <=? 0)%Z = true) by (apply Z.leb_le; lia).
    rewrite E. reflexivity.
  - intros Hk. split; [apply split_sizes_length; lia |].
    split; [apply split_sizes_sum; lia |].
    rewrite low_memory_matrix_op_unfold.
    rewrite (array_split_sizes (to_split s x y) k axis ax Hax Hk).
    reflexivity.
  - intros Hk. split; [apply split_sizes_excess; lia |].
    intros z Hc HL Hf.
    apply (low_memory_matrix_op_slices x y func s axis k verbose ax z);
      try assumption.
    lia.
Qed.

Lemma low_memory_matrix_op_split_count_witness :
  low_memory_matrix_op two_rows_one_feature one_row_one_feature
    euclidean_dist "x"%string 0 0 false = Raise ValueError /\
  (length (split_sizes
             (split_length "x"%string two_rows_one_feature
                           one_row_one_feature 0) (Z.to_nat 3))
   = Z.to_nat 3 /\
   sum_sizes (split_sizes
                (split_length "x"%string two_rows_one_feature
                              one_row_one_feature 0) (Z.to_nat 3))
   = split_length "x"%string two_rows_one_feature one_row_one_feature 0 /\
   low_memory_matrix_op two_rows_one_feature one_row_one_feature
     euclidean_dist "x"%string 0 3 false =
   (mat <- mapM (call_on_part euclidean_dist "x"%string
                   two_rows_one_feature one_row_one_feature)
             (slices_from
                (to_split "x"%string two_rows_one_feature one_row_one_feature)
                0 0
                (split_sizes
                   (split_length "x"%string two_rows_one_feature
                                 one_row_one_feature 0) (Z.to_nat 3))) ;;
    np_concatenate mat (axis_to_concat "x"%string))) /\
  (split_sizes
     (split_length "x"%string two_rows_one_feature one_row_one_feature 0)
     (Z.to_nat 3)
   = [1%nat; 1%nat; 0%nat] /\
   exists z r,
     euclidean_dist two_rows_one_feature one_row_one_feature = Ok z /\
     low_memory_matrix_op two_rows_one_feature one_row_one_feature
       euclidean_dist "x"%string 0 3 false = Ok r /\
     arr_eq r z).
Proof.
  pose proof (low_memory_matrix_op_split_count
                two_rows_one_feature one_row_one_feature
                euclidean_dist "x"%string 0 0 false 0 eq_refl) as H0.
  pose proof (low_memory_matrix_op_split_count
                two_rows_one_feature one_row_one_feature
                euclidean_dist "x"%string 0 3 false 0 eq_refl) as H3.
  split; [| split].
  - apply (proj1 H0). lia.
  - apply (proj1 (proj2 H3)). lia.
  - assert (Hgt : (Z.of_nat (split_length "x"%string two_rows_one_feature
                               one_row_one_feature 0) < 3)%Z)
      by (vm_compute; reflexivity).
    destruct (proj2 (proj2 H3) Hgt) as [Hsizes Hok].
    split; [exact Hsizes |].
    destruct (compute_dist_euclidean_2d two_rows_one_feature
                one_row_one_feature 2 1 1 eq_refl eq_refl)
      as (z & Hz & Hsz & _).
    destruct (Hok z) as (r & Hr & Heq).
    + change (axis_to_concat "x"%string) with 0%nat.
      unfold ndim. rewrite Hsz. simpl. lia.
    + change (axis_to_concat "x"%string) with 0%nat.
      rewrite Hsz. reflexivity.
    + apply (euclidean_dist_by_rows two_rows_one_feature one_row_one_feature
               2 1 1 z eq_refl eq_refl Hz).
    + exists z, r. split; [exact Hz |]. split; [exact Hr | exact Heq].
Defined.
